(** * scripts/generate_docs.js: the documentation generator of date-fns

    A shallow embedding of the script and the properties its
    specification states about it.

    Conventions of the embedding:
    - JavaScript values are typed: a documentation record, a parameter
      and a static document are records whose fields have the types the
      JSDoc parser and the configuration give them; a field that may be
      absent is an [option].
    - An exception is a value of [JSError]; a function that can throw
      returns a [result].
    - A plain object used as a dictionary whose key order is observed
      (the grouped documentation object) is the list [JSObject] of its own
      properties in the order in which they are enumerated: the array
      indices in ascending order, then the other names in the order of
      their creation.  Its prototype is [Object.prototype]: a lookup that
      finds no own property finds what is inherited under the names of
      [OBJECT_PROTOTYPE], and an assignment to [__proto__] creates no
      property.  Such an assignment of an array sets the prototype, which
      is not recorded: what is proved of the grouper is proved for a
      configuration without a category of that name.
    - A dictionary that is only looked up (the index of parameter names)
      is a [gmap], with the same treatment of [__proto__].
    - Objects that are mutated while several references to them exist
      (the parameters inside [paramsToTree]) live in an explicit heap. *)

From Stdlib Require Import ZArith String Ascii List Bool Lia Sorted.
From stdpp Require Import base option list gmap strings.

Local Open Scope Z_scope.

(** ** Exceptions and results *)

Inductive JSError :=
| TypeError (message : string)
| SyntaxError (message : string)
| SystemError (code : string)
| StreamError (message : string).

Inductive result (A : Type) :=
| Ok (a : A)
| Throw (e : JSError).
Arguments Ok {A} a.
Arguments Throw {A} e.

#[export] Instance result_ret : MRet result := fun A a => Ok a.
#[export] Instance result_bind : MBind result := fun A B k r =>
  match r with
  | Ok a => k a
  | Throw e => Throw e
  end.

(** [xs.map(f)] where [f] may throw: the first exception aborts the map. *)
Fixpoint mapR {A B} (f : A → result B) (xs : list A) : result (list B) :=
  match xs with
  | [] => Ok []
  | x :: xs' => y ← f x; ys ← mapR f xs'; Ok (y :: ys)
  end.

(** ** Built-ins of the language used by the script *)

(** Truthiness of a field that holds a boolean when present. *)
Definition truthy (v : option bool) : bool :=
  match v with
  | Some true => true
  | _ => false
  end.

(** [s.indexOf(t)]: the position of the first occurrence, or -1. *)
Definition indexOf (s t : string) : Z :=
  match String.index 0 t s with
  | Some n => Z.of_nat n
  | None => -1
  end.

(** [s.substring(from, to)] and [s.substring(from)], for indices within
    the string and [from <= to], as the script calls them. *)
Definition substring (s : string) (from to : Z) : string :=
  String.substring (Z.to_nat from) (Z.to_nat (to - from)) s.

Definition substring_from (s : string) (from : Z) : string :=
  String.substring (Z.to_nat from) (String.length s - Z.to_nat from) s.

(** [xs.reduce((acc, x, index) => f(acc, x, index), init)]. *)
Fixpoint reduce_from {A B} (f : B → A → nat → B) (index : nat)
    (xs : list A) (acc : B) : B :=
  match xs with
  | [] => acc
  | x :: xs' => reduce_from f (S index) xs' (f acc x index)
  end.

Definition reduce {A B} (f : B → A → nat → B) (xs : list A) (init : B) : B :=
  reduce_from f 0%nat xs init.

(** [xs.join(sep)] for an array of strings: the loop of the language
    definition, which puts the separator before every element but the
    first. *)
Fixpoint join_from (sep : string) (k : nat) (xs : list string)
    (R : string) : string :=
  match xs with
  | [] => R
  | x :: xs' =>
      let R := match k with O => R | S _ => R +:+ sep end in
      join_from sep (S k) xs' (R +:+ x)
  end.

Definition join (xs : list string) (sep : string) : string :=
  join_from sep 0%nat xs "".

(** ** Parameters *)

(** The shape of a parameter object as the JSDoc parser emits it
    ([name], [description], [type.names], [optional], [defaultvalue]),
    with the two fields the tree builder adds ([isProperty], [props]).
    [R] is what an element of the [props] array is. *)
Module ParamFields.
Record ParamOf (R : Type) := MkParam {
  name : string;
  description : string;
  type_names : list string;
  optional : option bool;
  defaultvalue : option string;
  isProperty : option bool;
  props : option (list R)
}.
Arguments MkParam {R}.
Arguments name {R}.
Arguments description {R}.
Arguments type_names {R}.
Arguments optional {R}.
Arguments defaultvalue {R}.
Arguments isProperty {R}.
Arguments props {R}.
End ParamFields.
Export ParamFields.

(** A parameter as a value: a tree. *)
#[warnings="-register-all"]
Inductive Param := Node (fields : ParamOf Param).

Definition fields (p : Param) : ParamOf Param :=
  match p with Node f => f end.
Coercion fields : Param >-> ParamOf.

(** Field assignments. *)
Definition set_name {R} (p : ParamOf R) (v : string) : ParamOf R :=
  MkParam v (description p) (type_names p) (optional p) (defaultvalue p)
    (isProperty p) (props p).

Definition set_isProperty {R} (p : ParamOf R) (v : option bool) : ParamOf R :=
  MkParam (name p) (description p) (type_names p) (optional p)
    (defaultvalue p) v (props p).

Definition set_props {R S} (p : ParamOf R) (v : option (list S)) : ParamOf S :=
  MkParam (name p) (description p) (type_names p) (optional p)
    (defaultvalue p) (isProperty p) v.

(** *** The heap of [paramsToTree]

    [cloneDeep] gives the function its own copy of the parameter
    objects; they are the elements of the array [params], and the heap is
    that array.  An element of a [props] array is either an object nobody
    else refers to (a copied sub-tree of the input) or a reference to the
    object at an index of [params]. *)
Inductive Ref :=
| Own (p : Param)
| At (index : nat).

Definition Cell := ParamOf Ref.

Definition cloneDeep (dirtyParams : list Param) : list Cell :=
  map (fun p : Param => set_props p (map Own <$> props p)) dirtyParams.

Definition PROP_ERROR : JSError :=
  TypeError "Cannot read property 'props' of undefined".

(** [result[name] = index] on the plain object [paramIndices], which
    holds numbers: the property is created or overwritten, for every name
    but [__proto__]. That name is the accessor which every object inherits
    from [Object.prototype], and its setter ignores a number: nothing is
    stored.  The lookup [paramIndices[parentName]] finds the number of an
    own property; under a name without one it finds undefined or, when the
    name is inherited, a function or [Object.prototype] itself, and
    [params] has no element at any of these: [None] stands for them all. *)
Definition set_index (result : gmap string nat) (name : string) (index : nat)
    : gmap string nat :=
  if String.eqb name "__proto__" then result else <[name := index]> result.

(** The callback of [params.map] at one index, on the heap. The two
    assignments to [param] come before the access to [parent.props], as in
    the source; the access throws when [parent] is undefined
    ([paramIndices] has no number under the name, so that
    [params[parentIndex]] is undefined). *)
Definition visit (paramIndices : gmap string nat) (index : nat)
    (params : list Cell) : result (list Cell) :=
  match params !! index with
  | None => Ok params
  | Some param =>
      let name := name param in
      let isProperty := isProperty param in
      let indexOfDot := indexOf name "." in
      if (0 <=? indexOfDot) && negb (truthy isProperty) then
        let parentIndex := paramIndices !! substring name 0 indexOfDot in
        let param := set_name param (substring_from name (indexOfDot + 1)) in
        let param := set_isProperty param (Some true) in
        let params := <[index := param]> params in
        match parentIndex with
        | None => Throw PROP_ERROR
        | Some parentIndex =>
            match params !! parentIndex with
            | None => Throw PROP_ERROR
            | Some parent =>
                let parent :=
                  match props parent with
                  | None => set_props parent (Some [At index])
                  | Some children =>
                      set_props parent (Some (children ++ [At index]))
                  end in
                Ok (<[parentIndex := parent]> params)
            end
        end
      else Ok params
  end.

(** [params.map(...)]: the callback at every index in turn. The mapped
    array holds the same objects in the same order, so the heap after the
    loop is also the mapped array. *)
Fixpoint visit_all (paramIndices : gmap string nat) (indices : list nat)
    (params : list Cell) : result (list Cell) :=
  match indices with
  | [] => Ok params
  | index :: rest =>
      params ← visit paramIndices index params;
      visit_all paramIndices rest params
  end.

(** Reading an object of the heap back as a value, following the
    references up to [depth] levels; [None] when a chain of references is
    longer (in particular when it is cyclic).  [paramsToTree_is_tree]
    below shows that the depth given in [paramsToTree] always suffices. *)
Fixpoint read_back (depth : nat) (heap : list Cell) (c : Cell)
    : option Param :=
  match depth with
  | O => None
  | S depth' =>
      let read r :=
        match r with
        | Own p => Some p
        | At i => heap !! i ≫= read_back depth' heap
        end in
      match props c with
      | None => Some (Node (set_props c None))
      | Some children =>
          kids ← mapM read children;
          Some (Node (set_props c (Some kids)))
      end
  end.

(** What an element of a [props] array reads back as. *)
Definition read_ref (d : nat) (heap : list Cell) (r : Ref) : option Param :=
  match r with
  | Own p => Some p
  | At i => heap !! i ≫= read_back d heap
  end.

Definition paramsToTree (dirtyParams : option (list Param))
    : result (option (list Param)) :=
  match dirtyParams with
  | None => Ok None
  | Some dirtyParams =>
      let params := cloneDeep dirtyParams in
      let paramIndices :=
        reduce (fun result (p : Cell) index => set_index result (name p) index)
          params (∅ : gmap string nat) in
      mapped ← visit_all paramIndices (seq 0 (length params)) params;
      let kept :=
        List.filter (fun param : Cell => negb (truthy (isProperty param)))
          mapped in
      match mapM (read_back (S (length mapped)) mapped) kept with
      | Some tree => Ok (Some tree)
      | None => Throw (TypeError "cyclic object value")
      end
  end.

(** A parameter with a name and nothing else. *)
Definition param (n : string) : Param :=
  Node (MkParam n "" [] None None None None).

(** ** The assembler: usage snippets and the syntax string *)

Module Snippet.
Record t := Make { title : string; code : string }.
End Snippet.

Module Usage.
Record t := Make { commonjs : Snippet.t; umd : Snippet.t; es2015 : Snippet.t }.
End Usage.

(** A record of the JSDoc parser for one documented function. *)
Module RawDoc.
Record t := Make {
  name : string;
  category : string;
  summary : string;
  description : string;
  examples : list string;
  params : option (list Param)
}.
End RawDoc.

Module DocEntry.
Record t := Make {
  type : string;
  urlId : string;
  category : string;
  title : string;
  description : string;
  content : RawDoc.t;
  args : option (list Param);
  usage : Usage.t;
  usageTabs : list string;
  syntax : string
}.
End DocEntry.

(** A static document: the descriptor of the configuration, which has no
  [content], and the document the injector makes of it. *)
Module StaticDoc.
Record descriptor := Describe {
  d_type : string;
  d_urlId : string;
  d_category : string;
  d_title : string;
  d_description : string;
  d_path : string
}.
Record t := Make {
  content : string;
  type : string;
  urlId : string;
  category : string;
  title : string;
  description : string;
  path : string
}.
End StaticDoc.

(** What a list of the grouped object holds. *)
Inductive Entry :=
| JsDoc (doc : DocEntry.t)
| Markdown (doc : StaticDoc.t).

(** Objects with a [category] field. *)
Class Categorized (A : Type) := category : A → string.
#[export] Instance DocEntry_categorized : Categorized DocEntry.t :=
  DocEntry.category.
#[export] Instance StaticDoc_categorized : Categorized StaticDoc.t :=
  StaticDoc.category.
#[export] Instance Entry_categorized : Categorized Entry := fun e =>
  match e with
  | JsDoc doc => category doc
  | Markdown doc => category doc
  end.

(** An entry with a name and a category, without parameters. *)
Definition entry (name category : string) : DocEntry.t :=
  DocEntry.Make "jsdoc" name category name ""
    (RawDoc.Make name category "" "" [] (Some [])) (Some [])
    (Usage.Make (Snippet.Make "CommonJS" "") (Snippet.Make "UMD" "")
       (Snippet.Make "ES 2015" ""))
    ["commonjs"; "umd"; "es2015"] (name +:+ "()").

Record File := { fullPath : string }.

Record DocsConfig := {
  groups : list string;
  staticDocs : list StaticDoc.descriptor
}.

(** What the parser's stream emits. *)
Inductive event :=
| on_data (chunk : string)
| on_end
| on_error (err : JSError).

(** ** Plain objects

    An array index is the decimal numeral, without leading zeros, of an
    integer from 0 to 2^32 - 2. *)
Definition digit (c : ascii) : option N :=
  let n := N_of_ascii c in
  if (48 <=? n)%N && (n <=? 57)%N then Some (n - 48)%N else None.

Fixpoint digits (s : string) (value : N) : option N :=
  match s with
  | EmptyString => Some value
  | String c s' => d ← digit c; digits s' (10 * value + d)%N
  end.

Definition array_index (k : string) : option N :=
  match k with
  | EmptyString => None
  | String c s' =>
      if Ascii.eqb c "0" && negb (String.eqb s' "") then None
      else n ← digits k 0; if (n <? 4294967295)%N then Some n else None
  end.

Definition is_index (k : string) : bool :=
  match array_index k with Some _ => true | None => false end.

Definition not_index (k : string) : bool := negb (is_index k).

(** The own properties of an object are enumerated with the array
    indices first, in ascending order, and then the other names in the
    order of their creation: [precedes k k'] when a new property [k] comes
    before the property [k']. *)
Definition precedes (k k' : string) : bool :=
  match array_index k, array_index k' with
  | Some n, Some n' => (n <? n')%N
  | Some _, None => true
  | None, _ => false
  end.

(** The own properties of an object, in the order of enumeration (the
    order of [Object.keys] and of [JSON.stringify]). *)
Definition JSObject (V : Type) := list (string * V).

Definition get {V} (o : JSObject V) (k : string) : option V :=
  snd <$> List.find (fun kv => String.eqb (fst kv) k) o.

Definition keys {V} (o : JSObject V) : list string := map fst o.

(** A new value for the own property [k]; a new own property [k]. *)
Fixpoint overwrite {V} (o : JSObject V) (k : string) (v : V) : JSObject V :=
  match o with
  | [] => []
  | (k', v') :: o' =>
      if String.eqb k' k then (k, v) :: o' else (k', v') :: overwrite o' k v
  end.

Fixpoint create {V} (o : JSObject V) (k : string) (v : V) : JSObject V :=
  match o with
  | [] => [(k, v)]
  | (k', v') :: o' =>
      if precedes k k' then (k, v) :: o else (k', v') :: create o' k v
  end.

(** The own property [k] holds [v]: it keeps its place when it exists. *)
Definition set {V} (o : JSObject V) (k : string) (v : V) : JSObject V :=
  match get o k with
  | Some _ => overwrite o k v
  | None => create o k v
  end.

(** The names of the properties of [Object.prototype], which a plain
    object inherits: the constructor, the methods, and the accessor
    [__proto__]. *)
Definition OBJECT_PROTOTYPE : list string :=
  ["constructor"; "__defineGetter__"; "__defineSetter__"; "hasOwnProperty";
   "__lookupGetter__"; "__lookupSetter__"; "isPrototypeOf";
   "propertyIsEnumerable"; "toString"; "valueOf"; "__proto__";
   "toLocaleString"].

Definition inherited (k : string) : bool :=
  existsb (String.eqb k) OBJECT_PROTOTYPE.

(** [o[k]]: what an own property holds; otherwise what is inherited under
    the name (a function, or [Object.prototype] under [__proto__]: a
    truthy value that is not an array); otherwise undefined. *)
Inductive Property (V : Type) :=
| Held (v : V)
| Inherited
| Undefined.
Arguments Held {V} v.
Arguments Inherited {V}.
Arguments Undefined {V}.

Definition access {V} (o : JSObject V) (k : string) : Property V :=
  match get o k with
  | Some v => Held v
  | None => if inherited k then Inherited else Undefined
  end.

(** [o[k] = v] where [v] is an array: the own property is written or
    created (a created property hides what is inherited under its name),
    except under [__proto__] when that is no own property: the assignment
    then goes to the inherited setter, which makes [v] the prototype of [o]
    and creates no property. *)
Definition assign {V} (o : JSObject V) (k : string) (v : V) : JSObject V :=
  match get o k with
  | Some _ => set o k v
  | None => if String.eqb k "__proto__" then o else set o k v
  end.

(** The modules the script imports, other than the language's own:
    [snakeCase] of lodash, [./_lib/list_files], [../docs], [jsdoc-parse]
    (the events its stream emits for a path, in order, up to [end] or
    [error]), [JSON], [fs-promise] (a write fulfils, or rejects with an
    error), [path.join] and [process.cwd]. *)
Class Imports := {
  snakeCase : string → string;
  listFiles : list File;
  docsConfig : DocsConfig;
  parseJSDoc : string → list event;
  JSON_parse : string → result (list RawDoc.t);
  JSON_stringify : JSObject (list Entry) → string;
  readFile : string → result string;
  writeFile : string → string → option JSError;
  path_join : list string → string;
  cwd : string
}.

Definition generateUsage `{Imports} (name : string) : Usage.t :=
  let fileName := snakeCase name in
  Usage.Make
    (Snippet.Make "CommonJS"
       ("var " +:+ name +:+ " = require('date-fns/" +:+ fileName +:+ "')"))
    (Snippet.Make "UMD" ("var " +:+ name +:+ " = dateFns." +:+ name))
    (Snippet.Make "ES 2015"
       ("import " +:+ name +:+ " from 'date-fns/" +:+ fileName +:+ "'")).

Definition generateSyntaxString (name : string) (args : option (list Param))
    : result string :=
  match args with
  | None => Throw (TypeError "Cannot read property 'map' of null")
  | Some args =>
      let argsString :=
        join (map (fun arg : Param =>
                     if truthy (optional arg)
                     then "[" +:+ ParamFields.name arg +:+ "]"
                     else ParamFields.name arg) args) ", " in
      Ok (name +:+ "(" +:+ argsString +:+ ")")
  end.

(** The callback of [jsDocs.map] in [generateDocsFromSource]: the fields
    of the literal are evaluated in the order they are written. *)
Definition assemble `{Imports} (doc : RawDoc.t) : result DocEntry.t :=
  args ← paramsToTree (RawDoc.params doc);
  let usage := generateUsage (RawDoc.name doc) in
  syntax ← generateSyntaxString (RawDoc.name doc) args;
  Ok (DocEntry.Make "jsdoc" (RawDoc.name doc) (RawDoc.category doc)
        (RawDoc.name doc) (RawDoc.summary doc) doc args usage
        ["commonjs"; "umd"; "es2015"] syntax).

(** ** The grouper *)

(** [xs.reduce] and [xs.forEach] with a callback that may throw. *)
Fixpoint reduceR {A B} (f : B → A → result B) (xs : list A) (acc : B)
    : result B :=
  match xs with
  | [] => Ok acc
  | x :: xs' => acc' ← f acc x; reduceR f xs' acc'
  end.

(** [receiver.push(x)]: the array after the call; a [TypeError] when the
    receiver is undefined. *)
Definition push {A} (receiver : option (list A)) (x : A) : result (list A) :=
  match receiver with
  | Some array => Ok (array ++ [x])
  | None => Throw (TypeError "Cannot read property 'push' of undefined")
  end.

Definition buildGroupsTemplate {A} (groups : list string)
    : JSObject (list A) :=
  reduce (fun acc group _ => assign acc group []) groups [].

Definition PUSH_ERROR : JSError :=
  TypeError "(intermediate value).push is not a function".

(** [(acc[doc.category] = acc[doc.category] || []).push(doc)]: the array
    found or a new one is assigned to the key, and it is that array, now
    held by [acc], that [push] extends. When the category is no own
    property and names an inherited one, what is found is truthy and is
    no array: it is assigned, and the call of its [push], which is
    undefined, throws; [acc] is lost with the exception. *)
Definition groupDocs {A} `{Categorized A} (docs : list A)
    (groups : list string) : result (JSObject (list A)) :=
  reduceR (fun acc doc =>
             match access acc (category doc) with
             | Inherited => Throw PUSH_ERROR
             | found =>
                 let array :=
                   match found with Held array => array | _ => [] end in
                 let acc := assign acc (category doc) array in
                 array ← push (Some array) doc;
                 Ok (set acc (category doc) array)
             end)
    docs (buildGroupsTemplate groups).

(** ** The process and its promises *)

(** What [console.error] was given. *)
Inductive Printed :=
| value_of (e : JSError)
| stack_of (e : JSError).

(** The process: what was printed on the error stream, and the files
    written, the last one first (a write that is rejected adds none). *)
Record Process := {
  stderr : list Printed;
  files : list (string * string)
}.

(** How the process ends: the chain of promises completes, [process.exit]
    is called, an exception escapes every handler, or a promise the chain
    waits for never settles. *)
Inductive Outcome :=
| Completed
| Exited (status : Z)
| Crashed (e : JSError)
| Stalled.

Inductive Settled (A : Type) :=
| Fulfilled (a : A)
| Rejected (e : JSError)
| Ended (o : Outcome).
Arguments Fulfilled {A} a.
Arguments Rejected {A} e.
Arguments Ended {A} o.

Definition Promise (A : Type) := Process → Settled A * Process.

Definition resolve {A} (a : A) : Promise A := fun w => (Fulfilled a, w).

(** The promise of a callback that returns or throws. *)
Definition settle {A} (r : result A) : Promise A := fun w =>
  match r with
  | Ok a => (Fulfilled a, w)
  | Throw e => (Rejected e, w)
  end.

Definition then_ {A B} (p : Promise A) (f : A → Promise B) : Promise B :=
  fun w =>
    match p w with
    | (Fulfilled a, w') => f a w'
    | (Rejected e, w') => (Rejected e, w')
    | (Ended o, w') => (Ended o, w')
    end.

Definition catch {A} (p : Promise A) (f : JSError → Promise A) : Promise A :=
  fun w =>
    match p w with
    | (Rejected e, w') => f e w'
    | settled => settled
    end.

Definition console_error (x : Printed) (w : Process) : Process :=
  {| stderr := stderr w ++ [x]; files := files w |}.

Definition process_exit {A} (status : Z) : Promise A :=
  fun w => (Ended (Exited status), w).

(** The handlers of [generateDocFromSource] on the events of one stream.
    An exception of [JSON.parse] in the [end] handler is outside the
    promise's executor and escapes; a stream that emits neither [end] nor
    [error] leaves the promise pending. *)
Fixpoint on_events `{Imports} (events : list event) (data : string)
    : Promise (list RawDoc.t) :=
  match events with
  | [] => fun w => (Ended Stalled, w)
  | on_data chunk :: events' => on_events events' (data +:+ chunk)
  | on_end :: _ =>
      match JSON_parse data with
      | Ok doc => resolve doc
      | Throw e => fun w => (Ended (Crashed e), w)
      end
  | on_error err :: _ =>
      fun w => process_exit 1 (console_error (value_of err) w)
  end.

Definition generateDocFromSource `{Imports} (acc : list RawDoc.t) (fn : File)
    : Promise (list RawDoc.t) :=
  then_ (on_events (parseJSDoc (fullPath fn)) "")
    (fun doc => resolve (acc ++ doc)).

Definition generateDocsFromSource `{Imports} : Promise (list DocEntry.t) :=
  then_
    (reduce (fun promise file _ =>
               then_ promise (fun acc => generateDocFromSource acc file))
       listFiles (resolve []))
    (fun jsDocs => settle (mapR assemble jsDocs)).

Definition generatedDocsObj `{Imports} (docs : list DocEntry.t)
    : Promise (JSObject (list Entry)) :=
  settle (groupDocs (map JsDoc docs) (groups docsConfig)).

(** [Object.assign({ content }, staticDoc)]. *)
Definition with_content (content : string) (d : StaticDoc.descriptor)
    : StaticDoc.t :=
  StaticDoc.Make content (StaticDoc.d_type d) (StaticDoc.d_urlId d)
    (StaticDoc.d_category d) (StaticDoc.d_title d)
    (StaticDoc.d_description d) (StaticDoc.d_path d).

(** [Promise.all] over the reads: the documents in the order of the
    descriptors, or a rejection when a read fails (of the first failing
    descriptor here; with several failing reads the script's choice is a
    matter of timing). *)
Definition getListOfStaticDocs `{Imports} : Promise (list StaticDoc.t) :=
  settle (mapR (fun staticDoc =>
                  content ← readFile (StaticDoc.d_path staticDoc);
                  Ok (with_content content staticDoc))
            (staticDocs docsConfig)).

(** The body of the [then] callback of [injectStaticDocsToDocsObj]. The
    array that [push] extends is the one held by the own property of the
    category; without such a property the call throws. *)
Definition injectAll (staticDocs : list StaticDoc.t)
    (docsFileObj : JSObject (list Entry)) : result (JSObject (list Entry)) :=
  reduceR (fun docsFileObj staticDoc =>
             array ← push (get docsFileObj (category staticDoc))
                       (Markdown staticDoc);
             Ok (set docsFileObj (category staticDoc) array))
    staticDocs docsFileObj.

Definition injectStaticDocsToDocsObj `{Imports}
    (docsFileObj : JSObject (list Entry)) : Promise (JSObject (list Entry)) :=
  then_ getListOfStaticDocs
    (fun staticDocs => settle (injectAll staticDocs docsFileObj)).

Definition reportErrors {A} (err : JSError) : Promise A :=
  fun w => process_exit 1 (console_error (stack_of err) w).

Definition writeDocsFile `{Imports} (docsFileObj : JSObject (list Entry))
    : Promise unit :=
  let jsonPath := path_join [cwd; "dist"; "date_fns_docs.json"] in
  let text := JSON_stringify docsFileObj in
  fun w =>
    match writeFile jsonPath text with
    | None =>
        (Fulfilled tt,
         {| stderr := stderr w; files := (jsonPath, text) :: files w |})
    | Some e => (Rejected e, w)
    end.

(** The script: the chain of promises at its top, run from a process
    state to the way the process ends. *)
Definition main `{Imports} (w : Process) : Outcome * Process :=
  match
    catch
      (then_ (then_ (then_ generateDocsFromSource generatedDocsObj)
                injectStaticDocsToDocsObj)
         writeDocsFile)
      reportErrors w
  with
  | (Fulfilled _, w') => (Completed, w')
  | (Rejected e, w') => (Crashed e, w')
  | (Ended o, w') => (o, w')
  end.

(** ** The tree builder as the specification describes it

    Section 4.1: a name-to-index lookup over the original flat list; a
    parameter whose name has a dot and which is not yet marked as a
    property is split at the first dot, marked, and appended to the
    [props] of the parameter the prefix looks up; the parameters marked as
    properties are then filtered out. *)

Definition dotted {R} (p : ParamOf R) : bool := 0 <=? indexOf (name p) ".".

Definition nests {R} (p : ParamOf R) : bool :=
  dotted p && negb (truthy (isProperty p)).

Definition parent_name {R} (p : ParamOf R) : string :=
  substring (name p) 0 (indexOf (name p) ".").

Definition short_name {R} (p : ParamOf R) : string :=
  substring_from (name p) (indexOf (name p) "." + 1).

Definition as_property {R} (p : ParamOf R) : ParamOf R :=
  set_isProperty (set_name p (short_name p)) (Some true).

(** The callback that builds the index, for objects with a name. *)
Definition add_name {A} (nm : A → string) (result : gmap string nat) (x : A)
    (index : nat) : gmap string nat :=
  set_index result (nm x) index.

Definition name_index (ps : list Param) : gmap string nat :=
  reduce (fun result (p : Param) index => set_index result (name p) index) ps ∅.

(** The parameter at [j] is to be nested under the one at [i]. *)
Definition is_child (ps : list Param) (i j : nat) : bool :=
  match (ps !! j : option Param) with
  | Some q => nests q && bool_decide (name_index ps !! parent_name q = Some i)
  | None => false
  end.

Definition children_upto (ps : list Param) (k i : nat) : list nat :=
  List.filter (is_child ps i) (seq 0 k).

Definition kids (ps : list Param) (i : nat) : list Param :=
  omap (fun j => (fun q : Param => Node (as_property q)) <$> ps !! j)
    (children_upto ps (length ps) i).

(** [props] after appending [new] one by one, the list being created by
    the first append. *)
Definition push_all {A} (old : option (list A)) (new : list A)
    : option (list A) :=
  match new with
  | [] => old
  | _ => Some (default [] old ++ new)
  end.

Definition top_level (p : Param) : bool :=
  negb (truthy (isProperty p)) && negb (dotted p).

Definition tree_node (ps : list Param) (i : nat) (p : Param) : Param :=
  Node (set_props p (push_all (props p) (kids ps i))).

Definition tree_spec (ps : list Param) : list Param :=
  omap id
    (imap (fun i (p : Param) =>
             if top_level p then Some (tree_node ps i p) else None) ps).

(** Every parameter to be nested finds its parent. *)
Definition orphan (ps : list Param) (p : Param) : bool :=
  nests p && negb (bool_decide (is_Some (name_index ps !! parent_name p))).

Definition resolves (ps : list Param) : bool :=
  forallb (fun p => negb (orphan ps p)) ps.

(** The heap after the callback has run at the indices below [k]. *)
Definition cell_at (ps : list Param) (k i : nat) (p : Param) : Cell :=
  let moved := nests p && (i <? k)%nat in
  MkParam (if moved then short_name p else name p)
    (description p) (type_names p) (optional p) (defaultvalue p)
    (if moved then Some true else isProperty p)
    (push_all (map Own <$> props p) (map At (children_upto ps k i))).

Definition heap_at (ps : list Param) (k : nat) : list Cell :=
  imap (cell_at ps k) ps.

(** ** The syntax string as the specification describes it *)

Definition bracketed (p : Param) : string :=
  if truthy (optional p) then "[" +:+ name p +:+ "]" else name p.

Definition syntax_spec (name : string) (args : list Param) : string :=
  name +:+ "(" +:+ String.concat ", " (bracketed <$> args) +:+ ")".

(** ** The grouper as the specification describes it *)

(** The distinct elements of a list, in the order of their first
    occurrences. *)
Fixpoint keep_first (l : list string) : list string :=
  match l with
  | [] => []
  | x :: l' => x :: List.filter (fun y => negb (String.eqb y x)) (keep_first l')
  end.

Definition in_category {A} `{Categorized A} (k : string) (x : A) : bool :=
  String.eqb (category x) k.

(** The keys of an object after a property [k] is set: in place when it
    exists, where the enumeration puts a new one otherwise. *)
Fixpoint place (k : string) (ks : list string) : list string :=
  match ks with
  | [] => [k]
  | k' :: ks' => if precedes k k' then k :: ks else k' :: place k ks'
  end.

Definition add_key (ks : list string) (k : string) : list string :=
  if bool_decide (k ∈ ks) then ks else place k ks.

(** The order in which an object enumerates the names under which
    properties were created one after the other: the array indices among
    them, ascending and without repetition, and then the other names in
    the order of their first occurrences. *)
Definition ascending (names : list string) : list string :=
  foldl add_key [] (List.filter is_index names).

Definition enumeration (names : list string) : list string :=
  ascending names ++ keep_first (List.filter not_index names).

Definition index_le (k k' : string) : Prop :=
  match array_index k, array_index k' with
  | Some n, Some n' => (n <= n')%N
  | _, _ => False
  end.

(** An entry that the grouper can file: its category is configured, or
    names no inherited property. *)
Definition groupable {A} `{Categorized A} (groups : list string) (x : A)
    : bool :=
  bool_decide (category x ∈ groups) || negb (inherited (category x)).

(** ** A run of the script

    The record of the end-to-end scenario of the specification, and
    imports for it: one source file whose stream ends after one chunk,
    one configured category, no static document. *)

Definition addDays : RawDoc.t :=
  RawDoc.Make "addDays" "Day Helpers" "Add days." "" []
    (Some [param "date"; param "amount"]).

Definition scenario : Imports := {|
  snakeCase := fun s => if String.eqb s "addDays" then "add_days" else s;
  listFiles := [{| fullPath := "src/add_days/index.js" |}];
  docsConfig := {| groups := ["Day Helpers"]; staticDocs := [] |};
  parseJSDoc := fun _ => [on_data "[{...}]"; on_end];
  JSON_parse := fun _ => Ok [addDays];
  JSON_stringify := fun _ => "{...}";
  readFile := fun _ => Throw (SystemError "ENOENT");
  writeFile := fun _ _ => None;
  path_join := fun parts => join parts "/";
  cwd := "/date-fns"
|}.

(** The same with a second source file whose stream fails, and with a
    record that has no parameter list. *)
Definition failing_stream : Imports := {|
  snakeCase := fun s => s;
  listFiles := [{| fullPath := "src/add_days/index.js" |};
                {| fullPath := "src/broken/index.js" |}];
  docsConfig := {| groups := ["Day Helpers"]; staticDocs := [] |};
  parseJSDoc := fun path =>
    if String.eqb path "src/broken/index.js"
    then [on_data "[{"; on_error (StreamError "parse failed")]
    else [on_data "[{...}]"; on_end];
  JSON_parse := fun _ => Ok [addDays];
  JSON_stringify := fun _ => "{...}";
  readFile := fun _ => Throw (SystemError "ENOENT");
  writeFile := fun _ _ => None;
  path_join := fun parts => join parts "/";
  cwd := "/date-fns"
|}.

Definition no_params : RawDoc.t :=
  RawDoc.Make "now" "Common Helpers" "The current time." "" [] None.

(** Imports with one static document, for the injector. *)
Definition getting_started : StaticDoc.descriptor :=
  StaticDoc.Describe "markdown" "Getting-Started" "General" "Getting Started"
    "Introduction" "docs/getting_started.md".

Definition with_static : Imports := {|
  snakeCase := fun s => s;
  listFiles := [];
  docsConfig := {| groups := ["General"; "Day Helpers"];
                   staticDocs := [getting_started] |};
  parseJSDoc := fun _ => [on_end];
  JSON_parse := fun _ => Ok [];
  JSON_stringify := fun _ => "{...}";
  readFile := fun _ => Ok "# Getting Started";
  writeFile := fun _ _ => None;
  path_join := fun parts => join parts "/";
  cwd := "/date-fns"
|}.

(** The extraction of a file completes: its stream ends and the text
    received parses. *)
Definition extracts `{Imports} (file : File) : Prop :=
  ∃ doc, ∀ w,
    on_events (parseJSDoc (fullPath file)) "" w = (Fulfilled doc, w).

(** The callback of the [reduce] over the files. *)
Definition next_file `{Imports} (promise : Promise (list RawDoc.t))
    (file : File) (index : nat) : Promise (list RawDoc.t) :=
  then_ promise (fun acc => generateDocFromSource acc file).

(** What the handlers of a stream do to the process at [w]: they fulfil
    and leave it as it was, or end it without touching the files, and never
    reject; and the second of these alone. *)
Definition extraction_step {A} (w : Process) (r : Settled A * Process) : Prop :=
  match r with
  | (Fulfilled _, w') => w' = w
  | (Rejected _, _) => False
  | (Ended o, w') => o ≠ Completed ∧ files w' = files w
  end.

Definition extraction_ended {A} (w : Process) (r : Settled A * Process) : Prop :=
  match r with
  | (Ended o, w') => o ≠ Completed ∧ files w' = files w
  | _ => False
  end.

(** ** Four statements of the specification that the script does not meet

    The first is about the grouper: an entry whose category is not among
    the configured ones makes it fail. *)
Definition unknown_category_fails : Prop :=
  ∀ (docs : list DocEntry.t) groups doc,
    doc ∈ docs → category doc ∉ groups →
    ∃ e, groupDocs docs groups = Throw e.


(** The third and the fourth are about the tree builder. A flat list is
    a list as the parser emits it: no parameter is marked as a property or
    has [props]. In every flat list with a parameter named [p], without a
    dot, and a parameter named [p.s], the builder returns a list in which
    a parameter holds the second, renamed and marked, in its [props]. *)
Definition flat (ps : list Param) : Prop :=
  ∀ q : Param, q ∈ ps → isProperty q = None ∧ props q = None.

Definition nests_in_every_flat_list : Prop :=
  ∀ (ps : list Param) i j (parent child : Param) p s,
    flat ps →
    ps !! i = Some parent → name parent = p → indexOf p "." = -1 →
    ps !! j = Some child → name child = p +:+ "." +:+ s →
    ∃ (out : list Param) (parent' : Param) (kids : list Param),
      paramsToTree (Some ps) = Ok (Some out) ∧
      parent' ∈ out ∧
      props parent' = Some kids ∧
      Node (set_isProperty (set_name child s) (Some true)) ∈ kids.

(** Whenever the list has a parameter with a dotted name whose prefix is
    the name of no parameter of the list, the builder throws. *)
Definition throws_on_every_orphan : Prop :=
  ∀ (ps : list Param) j (child : Param),
    ps !! j = Some child →
    0 <= indexOf (name child) "." →
    (∀ q : Param, q ∈ ps → name q ≠ parent_name child) →
    ∃ e, paramsToTree (Some ps) = Throw e.

(** Imports whose static document cannot be read. *)
Definition unreadable : Imports := {|
  snakeCase := fun s => s;
  listFiles := [];
  docsConfig := {| groups := ["General"]; staticDocs := [getting_started] |};
  parseJSDoc := fun _ => [on_end];
  JSON_parse := fun _ => Ok [];
  JSON_stringify := fun _ => "{...}";
  readFile := fun _ => Throw (SystemError "ENOENT");
  writeFile := fun _ _ => None;
  path_join := fun parts => join parts "/";
  cwd := "/date-fns"
|}.

(** How a stage of the chain may leave the process at [w]: it settles and
    leaves it as it was, or it ends it, in one of the ways the script has:
    by [process.exit(1)] after one message on the error stream and without
    touching the files, or with nothing printed and nothing written. *)
Definition ends_cleanly (w : Process) (o : Outcome) (w' : Process) : Prop :=
  match o with
  | Completed => False
  | Exited status =>
      status = 1 ∧ files w' = files w ∧ ∃ x, stderr w' = stderr w ++ [x]
  | Crashed _ | Stalled => w' = w
  end.

Definition quiet {A} (w : Process) (r : Settled A * Process) : Prop :=
  match r with
  | (Fulfilled _, w') | (Rejected _, w') => w' = w
  | (Ended o, w') => ends_cleanly w o w'
  end.

(** Imports whose one source file documents two functions, the second
    without a parameter list. *)
Definition parameterless : Imports := {|
  snakeCase := fun s => s;
  listFiles := [{| fullPath := "src/index.js" |}];
  docsConfig := {| groups := ["Day Helpers"]; staticDocs := [] |};
  parseJSDoc := fun _ => [on_data "[{...}, {...}]"; on_end];
  JSON_parse := fun _ => Ok [addDays; no_params];
  JSON_stringify := fun _ => "{...}";
  readFile := fun _ => Throw (SystemError "ENOENT");
  writeFile := fun _ _ => None;
  path_join := fun parts => join parts "/";
  cwd := "/date-fns"
|}.

(** Imports with two source files, whose streams emit their text in
    several chunks and whose records are in three categories, one of them
    not configured; there is one static document. The serialization used
    here shows the keys. *)
Definition subDays : RawDoc.t :=
  RawDoc.Make "subDays" "Day Helpers" "Subtract days." "" []
    (Some [param "date"; param "amount"]).

Definition isDate : RawDoc.t :=
  RawDoc.Make "isDate" "Common Helpers" "Is the value a date?" "" []
    (Some [param "argument"]).

Definition two_files : Imports := {|
  snakeCase := fun s => s;
  listFiles := [{| fullPath := "src/add_days/index.js" |};
                {| fullPath := "src/sub_days/index.js" |}];
  docsConfig := {| groups := ["General"; "Day Helpers"];
                   staticDocs := [getting_started] |};
  parseJSDoc := fun path =>
    if String.eqb path "src/add_days/index.js"
    then [on_data "[{addDays},"; on_data "{isDate}]"; on_end]
    else [on_data "[{sub"; on_data "Days"; on_data "}]"; on_end];
  JSON_parse := fun text =>
    if String.eqb text "[{addDays},{isDate}]" then Ok [addDays; isDate]
    else if String.eqb text "[{subDays}]" then Ok [subDays]
    else Throw (SyntaxError "Unexpected end of JSON input");
  JSON_stringify := fun obj => join (keys obj) ",";
  readFile := fun _ => Ok "# Getting Started";
  writeFile := fun _ _ => None;
  path_join := fun parts => join parts "/";
  cwd := "/date-fns"
|}.

(** The chain of the script before the writer. *)
Definition before_writer `{Imports} : Promise (JSObject (list Entry)) :=
  then_ (then_ generateDocsFromSource generatedDocsObj)
    injectStaticDocsToDocsObj.

(** The object the script writes, from the entries and the static
    documents. *)
Definition docs_object (groups : list string) (entries : list DocEntry.t)
    (statics : list StaticDoc.t) : JSObject (list Entry) :=
  (fun k =>
     (k, (JsDoc <$> List.filter (in_category k) entries)
         ++ (Markdown <$> List.filter (in_category k) statics)))
  <$> enumeration (groups ++ (category <$> entries)).

(** ** Notions for the further properties

    A parameter that is not marked as a property; the parameter at some
    index being what a parameter is to be nested under; a parameter
    without its [props]. *)
Definition unmarked (p : Param) : bool := negb (truthy (isProperty p)).

Definition child_of (ps : list Param) (i : nat) (q : Param) : bool :=
  nests q && bool_decide (name_index ps !! parent_name q = Some i).

Definition erase_props (p : Param) : Param :=
  Node (set_props p (None : option (list Param))).

(** * Properties *)

(** ** Strings *)

Lemma index_dot_cons a s :
  String.index 0 "." (String a s)
  = if Ascii.eqb a "." then Some 0%nat else S <$> String.index 0 "." s.
Proof.
  cbn [String.index String.prefix].
  destruct (Ascii.eqb_spec a "."%char) as [->|Hne].
  - destruct (ascii_dec "." "."); [|congruence]. by destruct s.
  - destruct (ascii_dec "." a) as [E|_]; [by subst|].
    by destruct (String.index 0 "." s).
Qed.

Lemma indexOf_nil : indexOf "" "." = -1.
Proof. reflexivity. Qed.

Lemma indexOf_cons a s :
  indexOf (String a s) "."
  = if Ascii.eqb a "." then 0
    else if 0 <=? indexOf s "." then indexOf s "." + 1 else -1.
Proof.
  unfold indexOf. rewrite index_dot_cons.
  destruct (Ascii.eqb a "."); [done|].
  destruct (String.index 0 "." s) as [n|]; simpl; [|done].
  destruct (0 <=? Z.of_nat n) eqn:E; lia.
Qed.

Lemma indexOf_bounds s :
  -1 <= indexOf s "." < Z.of_nat (String.length s) ∨ indexOf s "." = -1.
Proof.
  induction s as [|a s IH]; [by right|].
  rewrite indexOf_cons. cbn [String.length].
  destruct (Ascii.eqb a "."); [left; lia|].
  destruct (0 <=? indexOf s ".") eqn:E; [|by right].
  left. lia.
Qed.

(** The part of a name before its first dot has no dot. *)
Lemma prefix_no_dot s :
  0 <= indexOf s "." → indexOf (substring s 0 (indexOf s ".")) "." = -1.
Proof.
  unfold substring. induction s as [|a s IH]; [done|].
  rewrite indexOf_cons.
  destruct (Ascii.eqb a ".") eqn:Ea; [done|].
  destruct (0 <=? indexOf s ".") eqn:E; [|lia].
  intros _. apply Z.leb_le in E. specialize (IH E).
  replace (Z.to_nat (indexOf s "." + 1 - 0))
    with (S (Z.to_nat (indexOf s "." - 0))) by lia.
  change (Z.to_nat 0) with 0%nat in *.
  cbn [String.substring]. rewrite indexOf_cons, Ea, IH. done.
Qed.

(** A name [p.s] whose [p] has no dot splits into [p] and [s]. *)
Lemma indexOf_app p s :
  indexOf p "." = -1 →
  indexOf (p +:+ "." +:+ s) "." = Z.of_nat (String.length p).
Proof.
  induction p as [|a p IH].
  { intros _. exact (indexOf_cons "." s). }
  rewrite indexOf_cons. cbn [String.append String.length].
  destruct (Ascii.eqb a ".") eqn:Ea; [done|].
  destruct (0 <=? indexOf p ".") eqn:E; [apply Z.leb_le in E; lia|].
  intros _. change (String a p +:+ "." +:+ s) with (String a (p +:+ "." +:+ s)).
  rewrite indexOf_cons, Ea.
  assert (indexOf p "." = -1) as Hp.
  { destruct (indexOf_bounds p); [apply Z.leb_gt in E; lia|done]. }
  rewrite (IH Hp). destruct (0 <=? Z.of_nat (String.length p)) eqn:E'; lia.
Qed.

Lemma append_cons a p s : String a p +:+ s = String a (p +:+ s).
Proof. reflexivity. Qed.

Lemma append_nil s : "" +:+ s = s.
Proof. reflexivity. Qed.

Lemma substring_0_0 s : String.substring 0 0 s = "".
Proof. by destruct s. Qed.

Lemma substring_app_l p s :
  String.substring 0 (String.length p) (p +:+ s) = p.
Proof.
  induction p as [|a p IH].
  - rewrite append_nil. apply substring_0_0.
  - rewrite append_cons. cbn [String.length String.substring]. by rewrite IH.
Qed.

Lemma substring_all s : String.substring 0 (String.length s) s = s.
Proof. induction s as [|a s IH]; cbn; [done|by rewrite IH]. Qed.

Lemma substring_app_r p s :
  String.substring (String.length p) (String.length s) (p +:+ s) = s.
Proof.
  induction p as [|a p IH].
  - rewrite append_nil. apply substring_all.
  - rewrite append_cons. cbn [String.length String.substring]. done.
Qed.

Lemma length_append p s :
  String.length (p +:+ s) = (String.length p + String.length s)%nat.
Proof.
  induction p as [|a p IH]; [done|].
  rewrite append_cons. cbn [String.length]. by rewrite IH.
Qed.

Lemma append_assoc p q s : (p +:+ q) +:+ s = p +:+ q +:+ s.
Proof.
  induction p as [|a p IH]; [done|]. by rewrite !append_cons, IH.
Qed.

Lemma split_name p s :
  indexOf p "." = -1 →
  let n := p +:+ "." +:+ s in
  0 <= indexOf n "." ∧
  substring n 0 (indexOf n ".") = p ∧
  substring_from n (indexOf n "." + 1) = s.
Proof.
  intros Hp n. subst n. rewrite (indexOf_app p s Hp).
  split; [lia|]. unfold substring, substring_from. split.
  - rewrite Z.sub_0_r, Nat2Z.id. apply substring_app_l.
  - rewrite length_append.
    replace (Z.to_nat (Z.of_nat (String.length p) + 1))
      with (String.length (p +:+ ".")) by (rewrite length_append; cbn; lia).
    replace (String.length p + String.length ("." +:+ s) - String.length (p +:+ "."))%nat
      with (String.length s) by (rewrite !length_append; cbn; lia).
    rewrite <- append_assoc. apply substring_app_r.
Qed.

(** ** The index of parameter names *)

Section NameIndex.
Context {A : Type} (nm : A → string).

(** A name none of the parameters has keeps its entry. *)
Lemma reduce_from_other (ps : list A) k acc s :
  (∀ j q, ps !! j = Some q → nm q ≠ s) →
  reduce_from (add_name nm) k ps acc !! s = acc !! s.
Proof.
  revert k acc. induction ps as [|x ps IH]; intros k acc Hs; [done|].
  cbn [reduce_from]. rewrite IH.
  - unfold add_name, set_index. destruct (String.eqb (nm x) "__proto__"); [done|].
    apply lookup_insert_ne. apply (Hs 0%nat x). done.
  - intros j q Hq. apply (Hs (S j) q). done.
Qed.

(** The index never has an entry for [__proto__]. *)
Lemma reduce_from_proto (ps : list A) k acc :
  acc !! "__proto__" = None →
  reduce_from (add_name nm) k ps acc !! "__proto__" = None.
Proof.
  revert k acc. induction ps as [|x ps IH]; intros k acc Hacc; [done|].
  cbn [reduce_from]. apply IH. unfold add_name, set_index.
  destruct (String.eqb_spec (nm x) "__proto__") as [|Hne]; [done|].
  by rewrite lookup_insert_ne.
Qed.

(** An entry of the index is the position of a parameter of that name. *)
Lemma reduce_from_lookup (ps : list A) k acc s i :
  reduce_from (add_name nm) k ps acc !! s = Some i →
  acc !! s = Some i ∨
  ∃ q, ps !! (i - k)%nat = Some q ∧ (k ≤ i)%nat ∧ nm q = s.
Proof.
  revert k acc. induction ps as [|x ps IH]; intros k acc Hi; [by left|].
  cbn [reduce_from] in Hi. apply IH in Hi as [Hi|(q & Hq & Hk & Hn)].
  - unfold add_name, set_index in Hi.
    destruct (String.eqb (nm x) "__proto__"); [by left|].
    rewrite lookup_insert in Hi.
    case_decide as Hx; [|by left].
    right. exists x. simplify_eq. rewrite Nat.sub_diag. done.
  - right. exists q. split_and!; [|lia|done].
    replace (i - k)%nat with (S (i - S k)) by lia. done.
Qed.

(** The last parameter of a name is the one the index gives, unless the
    name is [__proto__]. *)
Lemma reduce_from_last (ps : list A) k acc s i q :
  s ≠ "__proto__" →
  ps !! i = Some q → nm q = s →
  (∀ j q', (i < j)%nat → ps !! j = Some q' → nm q' ≠ s) →
  reduce_from (add_name nm) k ps acc !! s = Some (k + i)%nat.
Proof.
  intros Hs.
  revert k acc i. induction ps as [|x ps IH]; intros k acc i Hq Hn Hlast; [done|].
  cbn [reduce_from]. destruct i as [|i].
  - simplify_eq/=. rewrite reduce_from_other.
    + unfold add_name, set_index.
      destruct (String.eqb_spec (nm q) "__proto__") as [|_]; [done|].
      rewrite lookup_insert_eq. f_equal. lia.
    + intros j q' Hq'. apply (Hlast (S j) q'); [lia|done].
  - rewrite (IH (S k) _ i); [f_equal; lia|done|done|].
    intros j q' Hj Hq'. apply (Hlast (S j) q'); [lia|done].
Qed.

End NameIndex.

Lemma reduce_from_fmap {A B C} (f : C → B → nat → C) (g : A → B) k xs acc :
  reduce_from f k (g <$> xs) acc = reduce_from (fun c x => f c (g x)) k xs acc.
Proof.
  revert k acc. induction xs as [|x xs IH]; intros k acc; [done|].
  cbn [fmap list_fmap reduce_from]. apply IH.
Qed.

(** The index built from the copies is the index of the input. *)
Lemma name_index_clone ps :
  reduce (fun result (p : Cell) index => set_index result (name p) index)
    (cloneDeep ps) ∅ = name_index ps.
Proof. unfold reduce, cloneDeep. by rewrite reduce_from_fmap. Qed.

Lemma name_index_lookup ps s i :
  name_index ps !! s = Some i → ∃ q : Param, ps !! i = Some q ∧ name q = s.
Proof.
  intros Hi.
  apply (reduce_from_lookup (fun p : Param => name p)) in Hi
    as [Hi|(q & Hq & _ & Hn)]; [done|].
  rewrite Nat.sub_0_r in Hq. eauto.
Qed.

Lemma name_index_last ps s i (q : Param) :
  s ≠ "__proto__" →
  ps !! i = Some q → name q = s →
  (∀ j (q' : Param), (i < j)%nat → ps !! j = Some q' → name q' ≠ s) →
  name_index ps !! s = Some i.
Proof.
  intros Hs Hq Hn Hlast.
  apply (reduce_from_last (fun p : Param => name p) ps 0 ∅ s i q); done.
Qed.

Lemma name_index_proto ps : name_index ps !! "__proto__" = None.
Proof. by apply (reduce_from_proto (fun p : Param => name p)). Qed.

(** A name of the list other than [__proto__] has an entry in the
    index. *)
Lemma reduce_from_is_Some {A} (nm : A → string) (ps : list A) k acc s :
  s ≠ "__proto__" →
  is_Some (acc !! s) ∨ (∃ q, q ∈ ps ∧ nm q = s) →
  is_Some (reduce_from (add_name nm) k ps acc !! s).
Proof.
  intros Hproto.
  revert k acc. induction ps as [|x ps IH]; intros k acc Hs; cbn [reduce_from].
  - destruct Hs as [?|(q & Hq & _)]; [done|by apply elem_of_nil in Hq].
  - apply IH. unfold add_name, set_index.
    destruct (String.eqb_spec (nm x) "__proto__") as [Hx|Hx].
    + destruct Hs as [Hacc|(q & Hq & Hname)]; [by left|].
      apply elem_of_cons in Hq as [->|Hq]; [congruence|by eauto].
    + rewrite lookup_insert.
      destruct Hs as [Hacc|(q & Hq & Hname)].
      * left. case_decide; [by eexists|done].
      * apply elem_of_cons in Hq as [->|Hq]; [|by eauto].
        left. by rewrite decide_True.
Qed.

Lemma name_index_is_Some ps s :
  is_Some (name_index ps !! s) ↔
  s ≠ "__proto__" ∧ ∃ q : Param, q ∈ ps ∧ name q = s.
Proof.
  split.
  - intros [i Hi]. split.
    + intros ->. by rewrite name_index_proto in Hi.
    + apply name_index_lookup in Hi as (q & Hq & Hname).
      exists q. split; [by eapply list_elem_of_lookup_2|done].
  - intros [Hproto Hq].
    apply (reduce_from_is_Some (fun p : Param => name p)); [done|by right].
Qed.

(** ** The heap during [params.map] *)

Lemma param_ext {R} (c1 c2 : ParamOf R) :
  name c1 = name c2 → description c1 = description c2 →
  type_names c1 = type_names c2 → optional c1 = optional c2 →
  defaultvalue c1 = defaultvalue c2 → isProperty c1 = isProperty c2 →
  props c1 = props c2 → c1 = c2.
Proof. destruct c1, c2. cbn. congruence. Qed.

Lemma visit_all_app idx l1 l2 h :
  visit_all idx (l1 ++ l2) h = (h' ← visit_all idx l1 h; visit_all idx l2 h').
Proof.
  revert h. induction l1 as [|i l1 IH]; intros h; [done|].
  cbn [app visit_all]. destruct (visit idx i h); [apply IH|done].
Qed.

Lemma children_upto_S ps k i :
  children_upto ps (S k) i
  = children_upto ps k i ++ (if is_child ps i k then [k] else []).
Proof.
  unfold children_upto. rewrite seq_S, List.filter_app. cbn [List.filter Nat.add].
  done.
Qed.

Lemma push_all_snoc {A} (old : option (list A)) new x :
  push_all old (new ++ [x])
  = Some (match push_all old new with None => [x] | Some l => l ++ [x] end).
Proof.
  destruct new as [|y new]; cbn.
  - by destruct old.
  - by rewrite app_comm_cons, app_assoc.
Qed.

Lemma heap_at_0 ps : heap_at ps 0 = cloneDeep ps.
Proof.
  unfold heap_at, cloneDeep. apply list_eq. intros i.
  rewrite list_lookup_imap, list_lookup_fmap.
  destruct (ps !! i) as [[q]|]; [|done]. cbn.
  unfold cell_at. cbn. by rewrite andb_false_r.
Qed.

Lemma length_heap_at ps k : length (heap_at ps k) = length ps.
Proof. apply length_imap. Qed.

Lemma heap_at_lookup ps k i :
  heap_at ps k !! i = cell_at ps k i <$> ps !! i.
Proof. apply list_lookup_imap. Qed.

Lemma is_child_at ps i k (p : Param) :
  ps !! k = Some p →
  is_child ps i k
  = nests p && bool_decide (name_index ps !! parent_name p = Some i).
Proof. intros Hp. unfold is_child. by rewrite Hp. Qed.

(** One step of the loop. *)
Lemma visit_heap_at ps k (p : Param) :
  ps !! k = Some p →
  visit (name_index ps) k (heap_at ps k)
  = if orphan ps p then Throw PROP_ERROR else Ok (heap_at ps (S k)).
Proof.
  intros Hp. unfold orphan, visit. rewrite heap_at_lookup, Hp. cbn [fmap option_fmap option_map].
  assert (cell_at ps k k p
          = set_props p (push_all (map Own <$> props p) (map At (children_upto ps k k))))
    as Hcell.
  { unfold cell_at. by rewrite Nat.ltb_irrefl, andb_false_r. }
  rewrite Hcell. cbn [name isProperty set_props].
  change ((0 <=? indexOf (name p) ".") && negb (truthy (isProperty p)))
    with (nests p).
  destruct (nests p) eqn:Hn; cbn [andb].
  2:{ f_equal. apply list_eq. intros i. rewrite !heap_at_lookup.
      destruct (ps !! i) as [q|] eqn:Hq; [|done]. cbn. f_equal.
      unfold cell_at. rewrite children_upto_S, (is_child_at ps i k p Hp), Hn.
      cbn [andb]. rewrite app_nil_r.
      destruct (decide (i = k)) as [->|Hik].
      - simplify_eq. rewrite Hn. done.
      - replace (i <? S k)%nat with (i <? k)%nat; [done|].
        destruct (Nat.ltb_spec i k), (Nat.ltb_spec i (S k)); try done; lia. }
  change (substring (name p) 0 (indexOf (name p) ".")) with (parent_name p).
  destruct (name_index ps !! parent_name p) as [pi|] eqn:Hpi; cbn; [|done].
  destruct (name_index_lookup ps _ _ Hpi) as (qp & Hqp & Hname).
  set (c' := set_isProperty _ _).
  assert (pi < length ps)%nat as Hpilt by (by eapply lookup_lt_Some).
  assert (k < length ps)%nat as Hklt by (by eapply lookup_lt_Some).
  assert (is_child ps pi k = true) as Hchild.
  { rewrite (is_child_at ps pi k p Hp), Hn, Hpi. by rewrite bool_decide_eq_true_2. }
  assert (∀ i, i ≠ pi → is_child ps i k = false) as Hother.
  { intros i Hi. rewrite (is_child_at ps i k p Hp), Hn, Hpi.
    rewrite bool_decide_eq_false_2; [done|]. congruence. }
  assert (∃ parent, <[k:=c']> (heap_at ps k) !! pi = Some parent ∧
            description parent = description qp ∧
            type_names parent = type_names qp ∧
            optional parent = optional qp ∧
            defaultvalue parent = defaultvalue qp ∧
            name parent = name (cell_at ps (S k) pi qp) ∧
            isProperty parent = isProperty (cell_at ps (S k) pi qp) ∧
            props parent
            = push_all (map Own <$> props qp) (map At (children_upto ps k pi)))
    as (parent & -> & Hd & Ht & Ho & Hv & Hnm & Hip & Hpr).
  { destruct (decide (pi = k)) as [->|Hne].
    - exists c'. rewrite list_lookup_insert_eq by (by rewrite length_heap_at).
      simplify_eq. unfold cell_at. rewrite Hn.
      replace (k <? S k)%nat with true by (symmetry; apply Nat.ltb_lt; lia).
      done.
    - exists (cell_at ps k pi qp).
      rewrite list_lookup_insert_ne, heap_at_lookup, Hqp by done.
      unfold cell_at.
      replace (pi <? S k)%nat with (pi <? k)%nat; [done|].
      destruct (Nat.ltb_spec pi k), (Nat.ltb_spec pi (S k)); try done; lia. }
  f_equal. apply list_eq. intros i. rewrite heap_at_lookup.
  destruct (decide (i = pi)) as [->|Hipi].
  { rewrite list_lookup_insert_eq by (by rewrite length_insert, length_heap_at).
    rewrite Hqp. cbn [fmap option_fmap option_map]. f_equal.
    transitivity (set_props parent
                    (Some (match props parent with
                           | None => [At k]
                           | Some l => l ++ [At k]
                           end))).
    { by destruct (props parent). }
    apply param_ext; cbn [set_props name description type_names optional
      defaultvalue isProperty props]; try done.
    rewrite Hpr. unfold cell_at. cbn [props].
    rewrite children_upto_S, Hchild, List.map_app. cbn [map].
    by rewrite push_all_snoc. }
  rewrite list_lookup_insert_ne by done.
  destruct (decide (i = k)) as [->|Hik].
  { rewrite list_lookup_insert_eq by (by rewrite length_heap_at).
    rewrite Hp. cbn [fmap option_fmap option_map]. f_equal.
    unfold cell_at. rewrite Hn, children_upto_S, Hother, app_nil_r by done.
    replace (k <? S k)%nat with true by (symmetry; apply Nat.ltb_lt; lia).
    done. }
  rewrite list_lookup_insert_ne, heap_at_lookup by done.
  destruct (ps !! i) as [q|] eqn:Hq; [|done]. cbn. f_equal.
  unfold cell_at. rewrite children_upto_S, Hother, app_nil_r by done.
  replace (i <? S k)%nat with (i <? k)%nat; [done|].
  destruct (Nat.ltb_spec i k), (Nat.ltb_spec i (S k)); try done; lia.
Qed.

(** The loop up to [k]. *)
Lemma visit_all_heap_at ps k :
  (k ≤ length ps)%nat →
  visit_all (name_index ps) (seq 0 k) (cloneDeep ps)
  = if forallb (fun p => negb (orphan ps p)) (take k ps)
    then Ok (heap_at ps k) else Throw PROP_ERROR.
Proof.
  induction k as [|k IH]; intros Hk.
  - rewrite take_0. cbn. by rewrite heap_at_0.
  - destruct (lookup_lt_is_Some_2 ps k) as [p Hp]; [lia|].
    rewrite seq_S, visit_all_app, IH, (take_S_r _ _ _ Hp), forallb_app by lia.
    cbn [Nat.add forallb]. rewrite andb_true_r.
    destruct (forallb _ (take k ps)); cbn; [|done].
    rewrite (visit_heap_at ps k p Hp). by destruct (orphan ps p).
Qed.

(** ** Reading the tree back *)

Lemma filter_none {A} (f : A → bool) l :
  (∀ x, x ∈ l → f x = false) → List.filter f l = [].
Proof.
  induction l as [|x l IH]; intros Hf; [done|].
  cbn. rewrite (Hf x) by left. apply IH. intros y Hy. apply Hf. by right.
Qed.

(** A parameter with a dotted name is nobody's parent: the index is asked
    for prefixes, which have no dot. *)
Lemma dotted_no_children ps k j (q : Param) :
  ps !! j = Some q → dotted q = true → children_upto ps k j = [].
Proof.
  intros Hq Hdot. apply filter_none. intros j' _.
  unfold is_child. destruct (ps !! j') as [q'|]; [|done].
  destruct (nests q') eqn:Hn; [|done]. cbn.
  apply bool_decide_eq_false_2. intros Hj.
  apply name_index_lookup in Hj as (qq & Hqq & Hname). simplify_eq.
  unfold nests, dotted in *. apply andb_true_iff in Hn as [Hn _].
  apply Z.leb_le in Hn, Hdot.
  pose proof (prefix_no_dot _ Hn) as Hpre.
  unfold parent_name in Hname. rewrite <- Hname in Hpre. lia.
Qed.

Lemma push_all_cons {A} (o : option (list A)) x l :
  push_all o (x :: l) = Some (default [] o ++ x :: l).
Proof. reflexivity. Qed.

Lemma read_back_push d heap (c : Cell) (p : ParamOf Param) refs vals :
  Forall2 (fun r y => read_ref d heap r = Some y) refs vals →
  props c = push_all (map Own <$> props p) refs →
  name c = name p → description c = description p →
  type_names c = type_names p → optional c = optional p →
  defaultvalue c = defaultvalue p → isProperty c = isProperty p →
  read_back (S d) heap c = Some (Node (set_props p (push_all (props p) vals))).
Proof.
  intros Hrefs Hprops ? ? ? ? ? ?. cbn [read_back]. rewrite Hprops.
  assert (∀ l : list Param,
            Forall2 (fun r y => read_ref d heap r = Some y) (Own <$> l) l)
    as Hown.
  { intros l. apply mapM_Some_1. by apply mapM_fmap_Some. }
  fold (read_ref d heap).
  destruct Hrefs as [|r y refs vals Hr Hrefs].
  - cbn [push_all]. destruct (props p) as [l|] eqn:Hl;
      cbn [fmap option_fmap option_map].
    + change (map Own l) with (Own <$> l).
      rewrite (mapM_Some_2 _ _ _ (Hown l)). cbn.
      do 2 f_equal. apply param_ext; cbn; congruence.
    + do 2 f_equal. apply param_ext; cbn; congruence.
  - rewrite !push_all_cons.
    rewrite (mapM_Some_2 _ _ (default [] (props p) ++ y :: vals)).
    2:{ apply Forall2_app; [|by constructor].
        destruct (props p) as [l|]; cbn; [apply Hown|constructor]. }
    cbn. do 2 f_equal. apply param_ext; cbn; congruence.
Qed.

(** A nested parameter reads back as the input parameter with its short
    name and the mark. *)
Lemma read_back_child ps d j (q : Param) :
  ps !! j = Some q → nests q = true →
  read_back (S d) (heap_at ps (length ps)) (cell_at ps (length ps) j q)
  = Some (Node (as_property q)).
Proof.
  intros Hq Hn.
  assert (cell_at ps (length ps) j q
          = set_props (as_property q) (map Own <$> props q)) as ->.
  { unfold cell_at. rewrite Hn, (dotted_no_children ps _ j q Hq).
    - apply lookup_lt_Some in Hq. apply Nat.ltb_lt in Hq. by rewrite Hq.
    - unfold nests in Hn. by apply andb_true_iff in Hn as [? _]. }
  replace (as_property q)
    with (set_props (as_property q) (push_all (props (as_property q)) []))
    at 2 by (by destruct q as [[]]).
  by apply (read_back_push _ _ _ _ [] []).
Qed.

Lemma read_children ps d i l :
  (∀ j, j ∈ l → is_child ps i j = true) →
  Forall2 (fun r y => read_ref (S d) (heap_at ps (length ps)) r = Some y)
    (At <$> l)
    (omap (fun j => (fun q : Param => Node (as_property q)) <$> ps !! j) l).
Proof.
  induction l as [|j l IH]; intros Hl; [constructor|].
  assert (is_child ps i j = true) as Hj by (apply Hl; left).
  unfold is_child in Hj.
  destruct (ps !! j) as [q|] eqn:Hq; [|done].
  apply andb_true_iff in Hj as [Hn _].
  cbn [fmap list_fmap omap list_omap]. rewrite Hq.
  cbn [fmap option_fmap option_map].
  constructor.
  - cbn [read_ref]. rewrite heap_at_lookup, Hq. cbn.
    by apply read_back_child.
  - apply IH. intros j' Hj'. apply Hl. by right.
Qed.

Lemma children_upto_spec ps k i j :
  j ∈ children_upto ps k i → is_child ps i j = true.
Proof.
  unfold children_upto. rewrite list_elem_of_In, filter_In. by intros [_ ?].
Qed.

(** A top-level parameter reads back as the input parameter with its
    children attached. *)
Lemma read_back_top ps i (p : Param) :
  ps !! i = Some p → nests p = false →
  read_back (S (length ps)) (heap_at ps (length ps)) (cell_at ps (length ps) i p)
  = Some (tree_node ps i p).
Proof.
  intros Hp Hn. unfold tree_node, kids.
  assert (∃ d, length ps = S d) as [d Hd].
  { apply lookup_lt_Some in Hp. destruct (length ps); [lia|eauto]. }
  pose proof (read_children ps d i _ (children_upto_spec ps (length ps) i))
    as Hkids.
  rewrite <- Hd in Hkids.
  apply (read_back_push _ _ _ _ (At <$> children_upto ps (length ps) i));
    unfold cell_at; rewrite ?Hn; cbn; done.
Qed.

(** The objects that pass the filter, read back. *)
Lemma read_back_kept (rd : Cell → option Param) l :
  ∀ (f : nat → Param → Cell) (g : nat → Param → option Param),
  (∀ i p, l !! i = Some p →
     if negb (truthy (isProperty (f i p)))
     then is_Some (g i p) ∧ rd (f i p) = g i p
     else g i p = None) →
  mapM rd (List.filter (fun c : Cell => negb (truthy (isProperty c))) (imap f l))
  = Some (omap id (imap g l)).
Proof.
  induction l as [|x l IH]; intros f g H; [done|].
  rewrite !imap_cons. cbn [List.filter omap].
  specialize (IH (f ∘ S) (g ∘ S) (fun i p Hp => H (S i) p Hp)).
  specialize (H 0%nat x eq_refl).
  destruct (negb (truthy (isProperty (f 0%nat x)))).
  - destruct H as [[y Hy] Hrd]. rewrite Hy in *. cbn. rewrite Hrd. cbn.
    rewrite IH. done.
  - rewrite H. cbn. apply IH.
Qed.

(** The tree builder computes the tree of the specification, or throws
    when a parameter to be nested has no parent in the list. *)
Lemma paramsToTree_spec ps :
  paramsToTree (Some ps)
  = if resolves ps then Ok (Some (tree_spec ps)) else Throw PROP_ERROR.
Proof.
  unfold paramsToTree. rewrite name_index_clone.
  replace (length (cloneDeep ps)) with (length ps)
    by (unfold cloneDeep; by rewrite length_map).
  rewrite visit_all_heap_at, firstn_all by done.
  fold (resolves ps). destruct (resolves ps); [|done].
  cbn [mbind result_bind]. rewrite length_heap_at.
  unfold heap_at, tree_spec. erewrite read_back_kept; [done|].
  intros i p Hp. unfold cell_at at 1. cbn [isProperty].
  apply lookup_lt_Some in Hp as Hlt. apply Nat.ltb_lt in Hlt. rewrite Hlt, andb_true_r.
  unfold top_level. destruct (nests p) eqn:Hn.
  - cbn. unfold nests in Hn. apply andb_true_iff in Hn as [-> ->]. done.
  - assert (negb (truthy (isProperty p)) && negb (dotted p)
            = negb (truthy (isProperty p))) as ->.
    { unfold nests in Hn. destruct (dotted p), (truthy (isProperty p)); done. }
    destruct (negb (truthy (isProperty p))); [|done].
    split; [eauto|]. by apply read_back_top.
Qed.

(** The objects the tree builder returns form a tree: reading them back
    never runs out of depth. *)
Lemma paramsToTree_is_tree dirtyParams :
  paramsToTree dirtyParams ≠ Throw (TypeError "cyclic object value").
Proof.
  destruct dirtyParams as [ps|]; [|done].
  rewrite paramsToTree_spec. by destruct (resolves ps).
Qed.

(** ** The tree of the specification *)

Lemma filter_none_children ps k i :
  (∀ j (q : Param), ps !! j = Some q → nests q = false) →
  children_upto ps k i = [].
Proof.
  intros Hq. apply filter_none. intros j _. unfold is_child.
  destruct (ps !! j) as [q|] eqn:Hj; [|done]. by rewrite (Hq j q Hj).
Qed.

Lemma elem_of_tree_spec ps (t : Param) :
  t ∈ tree_spec ps ↔
  ∃ i (p : Param), ps !! i = Some p ∧ top_level p = true ∧ t = tree_node ps i p.
Proof.
  unfold tree_spec. rewrite list_elem_of_omap. split.
  - intros (o & Ho & Hid). apply elem_of_lookup_imap in Ho as (i & p & -> & Hp).
    cbn in Hid. destruct (top_level p) eqn:Htop; [|done].
    exists i, p. by simplify_eq.
  - intros (i & p & Hp & Htop & ->). exists (Some (tree_node ps i p)).
    split; [|done]. apply elem_of_lookup_imap. exists i, p. by rewrite Htop.
Qed.

Lemma top_level_tree_node ps i p : top_level (tree_node ps i p) = top_level p.
Proof. reflexivity. Qed.

Lemma top_level_not_nests (p : Param) : top_level p = true → nests p = false.
Proof.
  unfold top_level, nests. destruct (dotted p), (truthy (isProperty p)); done.
Qed.

Lemma omap_imap_id {A} (g : nat → A → option A) l :
  (∀ i x, l !! i = Some x → g i x = Some x) → omap id (imap g l) = l.
Proof.
  revert g. induction l as [|x l IH]; intros g Hg; [done|].
  rewrite imap_cons. cbn [omap list_omap]. rewrite (Hg 0%nat x eq_refl). cbn.
  f_equal. apply IH. intros i y Hy. apply (Hg (S i) y Hy).
Qed.

(** A list of top-level parameters is its own tree. *)
Lemma tree_spec_top_level ps :
  (∀ p : Param, p ∈ ps → top_level p = true) →
  resolves ps = true ∧ tree_spec ps = ps.
Proof.
  intros Htop. split.
  - unfold resolves. apply forallb_forall. intros p Hp.
    apply list_elem_of_In, Htop, top_level_not_nests in Hp.
    unfold orphan. by rewrite Hp.
  - unfold tree_spec. apply omap_imap_id. intros i p Hp.
    rewrite (Htop p) by (by eapply list_elem_of_lookup_2).
    f_equal. unfold tree_node, kids.
    rewrite filter_none_children; [by destruct p as [[]]|].
    intros j q Hq. eapply top_level_not_nests, Htop, list_elem_of_lookup_2, Hq.
Qed.

Lemma forallb_false {A} (f : A → bool) l :
  forallb f l = false ↔ ∃ x, x ∈ l ∧ f x = false.
Proof.
  induction l as [|x l IH]; cbn.
  - split; [done|]. by intros (x & ?%elem_of_nil & _).
  - rewrite andb_false_iff, IH. split.
    + intros [Hx|(y & Hy & Hf)]; [exists x|exists y]; split; try done;
        [by left|by right].
    + intros (y & Hy & Hf). apply elem_of_cons in Hy as [->|Hy]; eauto.
Qed.

(** What an orphan is, in terms of the list: a parameter to be nested
    whose prefix is [__proto__], which the index never holds, or is the
    name of no parameter. *)
Lemma orphan_true ps (child : Param) :
  orphan ps child = true ↔
  0 <= indexOf (name child) "." ∧ truthy (isProperty child) = false ∧
  (parent_name child = "__proto__" ∨
   ∀ q : Param, q ∈ ps → name q ≠ parent_name child).
Proof.
  unfold orphan, nests, dotted.
  rewrite !andb_true_iff, !negb_true_iff, Z.leb_le.
  rewrite bool_decide_eq_false, name_index_is_Some. split.
  - intros [[? ?] Hnone]. split_and!; [done..|].
    destruct (decide (parent_name child = "__proto__")) as [|Hproto];
      [by left|right].
    intros q Hq Hname. apply Hnone. eauto.
  - intros (? & ? & Hnone). split_and!; [done..|].
    intros (Hproto & q & Hq & Hname).
    destruct Hnone as [|Hnone]; [done|]. by apply (Hnone q).
Qed.

(** Every parameter to be nested finds its parent, in terms of the
    list. *)
Lemma resolves_true ps :
  resolves ps = true ↔
  ∀ q : Param, q ∈ ps →
    0 <= indexOf (name q) "." → truthy (isProperty q) = false →
    parent_name q ≠ "__proto__" ∧
    ∃ q' : Param, q' ∈ ps ∧ name q' = parent_name q.
Proof.
  unfold resolves. rewrite forallb_forall. split.
  - intros Hres q Hq Hdot Hmark.
    specialize (Hres q (proj1 (list_elem_of_In _ _) Hq)).
    apply negb_true_iff in Hres. unfold orphan, nests, dotted in Hres.
    apply Z.leb_le in Hdot. rewrite Hdot, Hmark in Hres. cbn in Hres.
    apply negb_false_iff, bool_decide_eq_true_1 in Hres.
    by apply name_index_is_Some in Hres.
  - intros Hall q Hq%list_elem_of_In. apply negb_true_iff.
    destruct (orphan ps q) eqn:Ho; [|done].
    apply orphan_true in Ho as (Hdot & Hmark & Hnone).
    destruct (Hall q Hq Hdot Hmark) as (Hproto & q' & Hq' & Hname).
    destruct Hnone as [|Hnone]; [done|]. by destruct (Hnone q').
Qed.

(** ** Claims about the tree builder *)

(** C3. A null (or absent) parameter list gives a null tree, which is not
    the empty list that a list without entries gives. *)
Theorem paramsToTree_null :
  paramsToTree None = Ok None ∧
  paramsToTree None ≠ Ok (Some []) ∧
  paramsToTree (Some []) = Ok (Some []).
Proof. split_and!; done. Qed.

(** C8. The tree builder run on its own output returns it unchanged: the
    output has no dotted name and no marked parameter at top level, so
    nothing is nested and nothing is filtered out. *)
Theorem paramsToTree_idempotent (input output : option (list Param)) :
  paramsToTree input = Ok output → paramsToTree output = Ok output.
Proof.
  destruct input as [ps|]; [|by intros [= <-]].
  rewrite paramsToTree_spec. destruct (resolves ps); [|done].
  intros [= <-]. rewrite paramsToTree_spec.
  destruct (tree_spec_top_level (tree_spec ps)) as [-> ->]; [|done].
  intros t (i & p & _ & Htop & ->)%elem_of_tree_spec. done.
Qed.

Lemma paramsToTree_idempotent_witness :
  paramsToTree (Some [param "date"; param "options"; param "options.year"])
  = Ok (Some [param "date";
              Node (MkParam "options" "" [] None None None
                      (Some [Node (MkParam "year" "" [] None None
                                     (Some true) None)]))]) ∧
  paramsToTree
    (Some [param "date";
           Node (MkParam "options" "" [] None None None
                   (Some [Node (MkParam "year" "" [] None None
                                  (Some true) None)]))])
  = Ok (Some [param "date";
              Node (MkParam "options" "" [] None None None
                      (Some [Node (MkParam "year" "" [] None None
                                     (Some true) None)]))]).
Proof.
  assert (paramsToTree
            (Some [param "date"; param "options"; param "options.year"])
          = Ok (Some [param "date";
                      Node (MkParam "options" "" [] None None None
                              (Some [Node (MkParam "year" "" [] None None
                                             (Some true) None)]))])) as H
    by (vm_compute; reflexivity).
  split; [exact H|].
  exact (paramsToTree_idempotent _ _ H).
Defined.

(** C10 fails for a parameter that is already marked as a property: the
    guard [!isProperty] skips it, [parent] is never looked at, and the
    filter drops the parameter. *)
Lemma paramsToTree_marked_orphan :
  let marked := Node (MkParam "options.year" "" [] None None (Some true) None) in
  [marked] !! 0%nat = Some marked ∧
  0 <= indexOf (name marked) "." ∧
  (∀ q : Param, q ∈ [marked] → name q ≠ parent_name marked) ∧
  paramsToTree (Some [marked]) = Ok (Some []) ∧
  ¬ throws_on_every_orphan.
Proof.
  intros marked.
  assert (∀ q : Param, q ∈ [marked] → name q ≠ parent_name marked) as Hnames.
  { intros q ->%list_elem_of_singleton. by vm_compute. }
  split_and!; [done|by vm_compute|done|by vm_compute|].
  intros Hclaim.
  destruct (Hclaim [marked] 0%nat marked eq_refl ltac:(by vm_compute) Hnames)
    as [e He].
  vm_compute in He. discriminate.
Qed.

(** C10, amended. When a parameter has a dotted name, is not yet marked as
    a property, and the part of its name before the first dot is the name
    of no parameter of the list, the tree builder throws the [TypeError]
    of the access to [parent.props]. *)
Theorem paramsToTree_orphan (ps : list Param) j (child : Param) :
  ps !! j = Some child →
  0 <= indexOf (name child) "." →
  truthy (isProperty child) = false →
  (∀ q : Param, q ∈ ps → name q ≠ parent_name child) →
  paramsToTree (Some ps) = Throw PROP_ERROR.
Proof.
  intros Hchild Hdot Hmark Hnone. rewrite paramsToTree_spec.
  destruct (resolves ps) eqn:Hres; [|done].
  unfold resolves in Hres. rewrite forallb_forall in Hres.
  specialize (Hres child). rewrite <- list_elem_of_In in Hres.
  specialize (Hres (list_elem_of_lookup_2 _ _ _ Hchild)).
  unfold orphan, nests, dotted in Hres.
  apply Z.leb_le in Hdot. rewrite Hdot, Hmark in Hres. cbn in Hres.
  rewrite negb_involutive in Hres. apply bool_decide_eq_true_1 in Hres as [i Hi].
  apply name_index_lookup in Hi as (q & Hq & Hname).
  destruct (Hnone q); [by eapply list_elem_of_lookup_2|done].
Qed.

Lemma paramsToTree_orphan_witness :
  paramsToTree (Some [param "date"; param "options.year"]) = Throw PROP_ERROR.
Proof.
  apply (paramsToTree_orphan _ 1%nat (param "options.year")).
  - reflexivity.
  - by vm_compute.
  - reflexivity.
  - intros q Hq.
    apply elem_of_cons in Hq as [->|Hq]; [by vm_compute|].
    apply list_elem_of_singleton in Hq as ->. by vm_compute.
Defined.

(** C2 fails when the list has another parameter whose dotted name
    refers to no parameter of the list: the tree builder throws and
    returns no list. *)
Lemma paramsToTree_nests_orphan_elsewhere :
  let ps := [param "options"; param "options.year"; param "foo.bar"] in
  flat ps ∧
  ps !! 0%nat = Some (param "options") ∧
  indexOf "options" "." = -1 ∧
  ps !! 1%nat = Some (param "options.year") ∧
  paramsToTree (Some ps) = Throw PROP_ERROR ∧
  (¬ nests_in_every_flat_list).
Proof.
  intros ps.
  assert (flat ps) as Hflat.
  { intros q Hq. repeat (apply elem_of_cons in Hq as [->|Hq]; [done|]).
    by apply elem_of_nil in Hq. }
  split_and!; [done|done|by vm_compute|done|by vm_compute|].
  intros Hclaim.
  destruct (Hclaim ps 0%nat 1%nat (param "options") (param "options.year")
              "options" "year" Hflat eq_refl eq_refl ltac:(by vm_compute)
              eq_refl eq_refl) as (out & _ & _ & Hrun & _).
  vm_compute in Hrun. discriminate.
Qed.

(** C2, amended. In a list in which every parameter to be nested (its
    name has a dot and it is not marked as a property) finds its parent
    (the part of its name before the first dot is the name of a parameter
    of the list, and is not [__proto__], a name that the index never
    holds), take a top-level parameter [parent] named [p] (the last of
    that name, which is the one the index gives) and an unmarked
    parameter [child] named [p.s].
    The tree builder returns a list of top-level parameters, none of
    which has a dotted name, so that [child] is not among them; [parent]
    is among them with all its fields but [props] unchanged, and its
    [props] holds [child] with the name [s], the mark [isProperty], and
    every other field as in the input. *)
Theorem paramsToTree_nests (ps : list Param) i j (parent child : Param) p s :
  (∀ q : Param, q ∈ ps →
     0 <= indexOf (name q) "." → truthy (isProperty q) = false →
     parent_name q ≠ "__proto__" ∧
     ∃ q' : Param, q' ∈ ps ∧ name q' = parent_name q) →
  ps !! i = Some parent → name parent = p → indexOf p "." = -1 →
  truthy (isProperty parent) = false →
  (∀ i' (q : Param), (i < i')%nat → ps !! i' = Some q → name q ≠ p) →
  ps !! j = Some child → name child = p +:+ "." +:+ s →
  truthy (isProperty child) = false →
  ∃ (out : list Param) (parent' : Param) (kids : list Param),
    paramsToTree (Some ps) = Ok (Some out) ∧
    (∀ q : Param, q ∈ out →
       indexOf (name q) "." = -1 ∧ truthy (isProperty q) = false ∧
       name q ≠ name child) ∧
    parent' ∈ out ∧
    set_props parent' (props parent) = parent ∧
    props parent' = Some kids ∧
    Node (set_isProperty (set_name child s) (Some true)) ∈ kids.
Proof.
  intros Hres Hparent Hp Hnodot Hpm Hlast Hchild Hname Hcm.
  destruct (split_name p s Hnodot) as (Hdot & Hprefix & Hsuffix).
  cbn zeta in *. rewrite <- Hname in Hdot, Hprefix, Hsuffix.
  assert (p ≠ "__proto__") as Hproto.
  { destruct (Hres child (list_elem_of_lookup_2 _ _ _ Hchild) Hdot Hcm)
      as [Hproto _].
    unfold parent_name in Hproto. by rewrite Hprefix in Hproto. }
  apply resolves_true in Hres.
  assert (nests child = true) as Hnests.
  { unfold nests, dotted. apply Z.leb_le in Hdot. by rewrite Hdot, Hcm. }
  assert (is_child ps i j = true) as Hij.
  { rewrite (is_child_at ps i j child Hchild), Hnests.
    apply bool_decide_eq_true_2. unfold parent_name. rewrite Hprefix.
    by apply (name_index_last ps p i parent). }
  assert (Node (as_property child) ∈ kids ps i) as Hkid.
  { unfold kids. apply list_elem_of_omap. exists j. rewrite Hchild. split; [|done].
    unfold children_upto. apply list_elem_of_In, filter_In. split; [|done].
    apply in_seq. apply lookup_lt_Some in Hchild. lia. }
  assert (top_level parent = true) as Htop.
  { unfold top_level, dotted. rewrite Hpm, Hp, Hnodot. done. }
  exists (tree_spec ps), (tree_node ps i parent),
    (default [] (props parent) ++ kids ps i).
  rewrite paramsToTree_spec, Hres. split_and!.
  - done.
  - intros q (i' & q' & _ & Hq' & ->)%elem_of_tree_spec.
    change (name (tree_node ps i' q')) with (name q').
    change (isProperty (tree_node ps i' q')) with (isProperty q').
    unfold top_level, dotted in Hq'.
    apply andb_true_iff in Hq' as [Hm Hd].
    apply negb_true_iff in Hm, Hd. apply Z.leb_gt in Hd.
    split_and!; [|done|].
    + destruct (indexOf_bounds (name q')); [lia|done].
    + intros Heq. rewrite Heq in Hd. lia.
  - apply elem_of_tree_spec. eauto.
  - unfold tree_node. by destruct parent as [[]].
  - unfold tree_node. cbn [fields props set_props].
    destruct (kids ps i); [by apply elem_of_nil in Hkid|done].
  - apply elem_of_app. right.
    unfold as_property, short_name in Hkid. by rewrite Hsuffix in Hkid.
Qed.

Lemma paramsToTree_nests_witness :
  ∃ (out : list Param) (parent' : Param) (kids : list Param),
    paramsToTree (Some [param "date"; param "options"; param "options.year"])
    = Ok (Some out) ∧
    (∀ q : Param, q ∈ out →
       indexOf (name q) "." = -1 ∧ truthy (isProperty q) = false ∧
       name q ≠ name (param "options.year")) ∧
    parent' ∈ out ∧
    set_props parent' (props (param "options")) = param "options" ∧
    props parent' = Some kids ∧
    Node (set_isProperty (set_name (param "options.year") "year") (Some true))
    ∈ kids.
Proof.
  apply (paramsToTree_nests _ 1%nat 2%nat (param "options")
           (param "options.year") "options" "year").
  - intros q Hq Hdot _.
    repeat (apply elem_of_cons in Hq as [->|Hq]; [by vm_compute in Hdot|]).
    apply list_elem_of_singleton in Hq as ->.
    split; [by vm_compute|]. exists (param "options").
    split; [|by vm_compute]. right. by left.
  - reflexivity.
  - reflexivity.
  - by vm_compute.
  - reflexivity.
  - intros [|[|[|[|i']]]] q Hi Hq; try lia; simplify_eq/=. by vm_compute.
  - reflexivity.
  - reflexivity.
  - reflexivity.
Defined.

(** Names that every object inherits, as names of parameters: the index
    stores nothing under [__proto__], so that a parameter of that name is
    no parent; under another inherited name it stores the position like
    under any name; and what an inherited name without a parameter finds
    is no position. *)
Example paramsToTree_proto :
  paramsToTree (Some [param "__proto__"; param "__proto__.x"])
  = Throw PROP_ERROR.
Proof. by vm_compute. Qed.

Example paramsToTree_constructor :
  paramsToTree (Some [param "constructor"; param "constructor.x"])
  = Ok (Some [Node (MkParam "constructor" "" [] None None None
                      (Some [Node (MkParam "x" "" [] None None
                                     (Some true) None)]))]).
Proof. by vm_compute. Qed.

Example paramsToTree_toString :
  paramsToTree (Some [param "toString.x"]) = Throw PROP_ERROR.
Proof. by vm_compute. Qed.

(** ** Objects as ordered dictionaries *)

Section JSObject.
Context {V : Type}.
Implicit Types (o : JSObject V) (k : string) (v : V).

Lemma get_Some_keys o k : is_Some (get o k) ↔ k ∈ keys o.
Proof.
  unfold get, keys. induction o as [|[k0 v0] o IH]; cbn.
  - split; [by intros [? ?]|by intros ?%elem_of_nil].
  - rewrite elem_of_cons. destruct (String.eqb_spec k0 k) as [->|Hk]; cbn.
    + split; eauto.
    + rewrite IH. split; [by right|by intros [?|?]].
Qed.

Lemma get_None_keys o k : get o k = None ↔ k ∉ keys o.
Proof. rewrite <- get_Some_keys, eq_None_not_Some. done. Qed.

Lemma get_overwrite_eq o k v :
  is_Some (get o k) → get (overwrite o k v) k = Some v.
Proof.
  unfold get. induction o as [|[k' v'] o IH]; cbn; [by intros [? ?]|].
  destruct (String.eqb_spec k' k) as [->|Hne]; cbn.
  - by rewrite String.eqb_refl.
  - destruct (String.eqb_spec k' k); [done|]. apply IH.
Qed.

Lemma get_overwrite_ne o k k' v :
  k ≠ k' → get (overwrite o k v) k' = get o k'.
Proof.
  intros Hne. unfold get. induction o as [|[k0 v0] o IH]; cbn; [done|].
  destruct (String.eqb_spec k0 k) as [->|Hk]; cbn.
  - by destruct (String.eqb_spec k k').
  - destruct (String.eqb_spec k0 k'); [done|]. apply IH.
Qed.

Lemma get_create_eq o k v : get o k = None → get (create o k v) k = Some v.
Proof.
  unfold get. induction o as [|[k' v'] o IH]; cbn.
  - by rewrite String.eqb_refl.
  - destruct (String.eqb_spec k' k) as [->|Hne]; cbn; [done|]. intros Hnone.
    destruct (precedes k k'); cbn.
    + by rewrite String.eqb_refl.
    + destruct (String.eqb_spec k' k); [done|]. by apply IH.
Qed.

Lemma get_create_ne o k k' v : k ≠ k' → get (create o k v) k' = get o k'.
Proof.
  intros Hne. unfold get. induction o as [|[k0 v0] o IH]; cbn.
  - by destruct (String.eqb_spec k k').
  - destruct (precedes k k0); cbn.
    + by destruct (String.eqb_spec k k').
    + destruct (String.eqb_spec k0 k'); [done|]. apply IH.
Qed.

Lemma get_set_eq o k v : get (set o k v) k = Some v.
Proof.
  unfold set. destruct (get o k) as [v0|] eqn:Hget.
  - apply get_overwrite_eq. by rewrite Hget.
  - by apply get_create_eq.
Qed.

Lemma get_set_ne o k k' v : k ≠ k' → get (set o k v) k' = get o k'.
Proof.
  intros Hne. unfold set.
  destruct (get o k); [by apply get_overwrite_ne|by apply get_create_ne].
Qed.

Lemma keys_overwrite o k v : keys (overwrite o k v) = keys o.
Proof.
  unfold keys. induction o as [|[k0 v0] o IH]; cbn; [done|].
  destruct (String.eqb_spec k0 k) as [->|Hk]; cbn; [done|]. by rewrite IH.
Qed.

Lemma keys_create o k v : keys (create o k v) = place k (keys o).
Proof.
  unfold keys. induction o as [|[k0 v0] o IH]; cbn; [done|].
  destruct (precedes k k0); cbn; [done|]. by rewrite IH.
Qed.

(** Setting a property leaves the keys as they are when it exists, and
    puts a new key where the enumeration has it. *)
Lemma keys_set o k v :
  keys (set o k v)
  = if bool_decide (k ∈ keys o) then keys o else place k (keys o).
Proof.
  unfold set. destruct (get o k) as [v0|] eqn:Hget.
  - rewrite keys_overwrite, bool_decide_eq_true_2; [done|].
    apply get_Some_keys. by rewrite Hget.
  - rewrite keys_create, bool_decide_eq_false_2; [done|].
    by apply get_None_keys.
Qed.

Lemma keys_set_add o k v : keys (set o k v) = add_key (keys o) k.
Proof. apply keys_set. Qed.

(** An assignment is the setting of the property, except under
    [__proto__]. *)
Lemma assign_set o k v :
  is_Some (get o k) ∨ k ≠ "__proto__" → assign o k v = set o k v.
Proof.
  unfold assign. destruct (get o k) as [v0|]; [done|].
  intros [[? ?]|Hk]; [done|]. by destruct (String.eqb_spec k "__proto__").
Qed.

End JSObject.

(** ** First occurrences *)

Lemma elem_of_filter_neq x y (l : list string) :
  x ∈ List.filter (fun z => negb (String.eqb z y)) l ↔ x ≠ y ∧ x ∈ l.
Proof.
  rewrite !list_elem_of_In, filter_In, negb_true_iff, String.eqb_neq. tauto.
Qed.

Lemma elem_of_keep_first x l : x ∈ keep_first l ↔ x ∈ l.
Proof.
  induction l as [|y l IH]; [done|]. cbn.
  rewrite !elem_of_cons, elem_of_filter_neq, IH.
  destruct (decide (x = y)); tauto.
Qed.

Lemma keep_first_snoc l x :
  keep_first (l ++ [x])
  = if bool_decide (x ∈ l) then keep_first l else keep_first l ++ [x].
Proof.
  induction l as [|y l IH]; [done|]. cbn [app keep_first]. rewrite IH.
  destruct (decide (x = y)) as [->|Hxy].
  - rewrite (bool_decide_eq_true_2 (y ∈ y :: l)) by left.
    destruct (bool_decide (y ∈ l)); [done|].
    rewrite List.filter_app. cbn. rewrite String.eqb_refl. cbn.
    by rewrite app_nil_r.
  - destruct (bool_decide (x ∈ l)) eqn:E.
    + rewrite bool_decide_eq_true_2; [done|].
      right. by apply bool_decide_eq_true_1 in E.
    + rewrite bool_decide_eq_false_2.
      * rewrite List.filter_app. cbn.
        destruct (String.eqb_spec x y); [done|]. done.
      * apply bool_decide_eq_false_1 in E. rewrite elem_of_cons.
        by intros [?|?].
Qed.

Lemma keep_first_app l1 l2 :
  ∃ rest, keep_first (l1 ++ l2) = keep_first l1 ++ rest.
Proof.
  induction l1 as [|x l1 [rest IH]]; cbn [app keep_first]; [by eexists|].
  rewrite IH, List.filter_app. by eexists.
Qed.



(** ** The order of enumeration *)

Lemma precedes_not_index k k' : is_index k = false → precedes k k' = false.
Proof. unfold is_index, precedes. by destruct (array_index k). Qed.

Lemma precedes_index k k' :
  is_index k = true → is_index k' = false → precedes k k' = true.
Proof.
  unfold is_index, precedes.
  by destruct (array_index k), (array_index k').
Qed.

Lemma elem_of_place k k' ks : k' ∈ place k ks ↔ k' = k ∨ k' ∈ ks.
Proof.
  induction ks as [|k0 ks IH]; cbn.
  - rewrite list_elem_of_singleton, elem_of_nil. tauto.
  - destruct (precedes k k0).
    + by rewrite elem_of_cons.
    + rewrite !elem_of_cons, IH. tauto.
Qed.

Lemma elem_of_add_key ks k k' : k' ∈ add_key ks k ↔ k' ∈ ks ∨ k' = k.
Proof.
  unfold add_key. case_bool_decide as Hk.
  - split; [by left|]. by intros [?| ->].
  - rewrite elem_of_place. tauto.
Qed.

Lemma NoDup_place k ks : k ∉ ks → NoDup ks → NoDup (place k ks).
Proof.
  intros Hk Hnodup. induction Hnodup as [|k0 ks Hk0 Hnodup IH]; cbn.
  - apply NoDup_singleton.
  - destruct (precedes k k0).
    + constructor; [done|by constructor].
    + apply not_elem_of_cons in Hk as [Hne Hk]. constructor; [|by apply IH].
      rewrite elem_of_place. intros [?|?]; congruence.
Qed.

Lemma NoDup_add_key ks k : NoDup ks → NoDup (add_key ks k).
Proof.
  intros Hnodup. unfold add_key. case_bool_decide; [done|].
  by apply NoDup_place.
Qed.

Lemma add_key_idemp ks k : add_key (add_key ks k) k = add_key ks k.
Proof.
  unfold add_key at 1. rewrite bool_decide_eq_true_2; [done|].
  apply elem_of_add_key. by right.
Qed.

Lemma foldl_snoc {A B} (f : B → A → B) acc l x :
  foldl f acc (l ++ [x]) = f (foldl f acc l) x.
Proof. by rewrite foldl_app. Qed.

Lemma elem_of_ascending k names :
  k ∈ ascending names ↔ k ∈ names ∧ is_index k = true.
Proof.
  unfold ascending. induction names as [|x names IH] using rev_ind.
  - cbn. rewrite !elem_of_nil. tauto.
  - rewrite List.filter_app, elem_of_app, list_elem_of_singleton.
    cbn [List.filter]. destruct (is_index x) eqn:Hx.
    + rewrite foldl_snoc, elem_of_add_key, IH.
      split; [intros [[? ?]| ->]; auto|]. intros [[?| ->] ?]; auto.
    + rewrite app_nil_r, IH.
      split; [intros [? ?]; auto|]. intros [[?| ->] ?]; [done|congruence].
Qed.

(** A new array index goes among the array indices; another new name
    goes to the end. *)
Lemma place_among_indices k idx others :
  is_index k = true → Forall (fun x => is_index x = false) others →
  place k (idx ++ others) = place k idx ++ others.
Proof.
  intros Hk Hothers. induction idx as [|i idx IH]; cbn.
  - destruct Hothers as [|x others Hx _]; [done|]. cbn.
    by rewrite precedes_index.
  - destruct (precedes k i); [done|]. by rewrite IH.
Qed.

Lemma place_at_end k ks : is_index k = false → place k ks = ks ++ [k].
Proof.
  intros Hk. induction ks as [|k0 ks IH]; cbn; [done|].
  by rewrite precedes_not_index, IH.
Qed.

Lemma Forall_not_index_keep_first names :
  Forall (fun x => is_index x = false)
    (keep_first (List.filter not_index names)).
Proof.
  apply Forall_forall. intros x Hx.
  apply (proj1 (elem_of_keep_first _ _)) in Hx.
  apply list_elem_of_In, filter_In in Hx as [_ Hx].
  by apply negb_true_iff in Hx.
Qed.

(** The enumeration after one more name. *)
Lemma enumeration_snoc names k :
  enumeration (names ++ [k]) = add_key (enumeration names) k.
Proof.
  unfold enumeration, ascending. rewrite !List.filter_app. cbn [List.filter].
  unfold not_index at 2. destruct (is_index k) eqn:Hk; cbn [negb].
  - rewrite foldl_snoc, app_nil_r. fold (ascending names).
    unfold add_key.
    rewrite (bool_decide_ext
               (k ∈ ascending names
                    ++ keep_first (List.filter not_index names))
               (k ∈ ascending names)).
    2:{ rewrite elem_of_app, elem_of_keep_first. split; [|by left].
        intros [?|Hin]; [done|].
        apply list_elem_of_In, filter_In in Hin as [_ Hin].
        unfold not_index in Hin. by rewrite Hk in Hin. }
    case_bool_decide; [done|].
    apply symmetry, place_among_indices;
      [done|apply Forall_not_index_keep_first].
  - rewrite app_nil_r, keep_first_snoc. fold (ascending names).
    unfold add_key.
    rewrite (bool_decide_ext
               (k ∈ ascending names
                    ++ keep_first (List.filter not_index names))
               (k ∈ List.filter not_index names)).
    2:{ rewrite elem_of_app, elem_of_keep_first, elem_of_ascending.
        split; [|by right]. intros [[_ ?]|?]; [congruence|done]. }
    case_bool_decide; [done|].
    by rewrite place_at_end, app_assoc.
Qed.

Lemma elem_of_enumeration k names : k ∈ enumeration names ↔ k ∈ names.
Proof.
  induction names as [|x names IH] using rev_ind; [done|].
  rewrite enumeration_snoc, elem_of_add_key, IH, elem_of_app,
    list_elem_of_singleton.
  done.
Qed.

Lemma NoDup_enumeration names : NoDup (enumeration names).
Proof.
  induction names as [|x names IH] using rev_ind; [constructor|].
  rewrite enumeration_snoc. by apply NoDup_add_key.
Qed.

(** Without array indices, the enumeration is the order of creation. *)
Lemma enumeration_no_index names :
  (∀ k, k ∈ names → array_index k = None) →
  enumeration names = keep_first names.
Proof.
  intros Hnone.
  assert (∀ k, k ∈ names → is_index k = false) as Hnot.
  { intros k Hk. unfold is_index. by rewrite (Hnone k Hk). }
  unfold enumeration, ascending.
  rewrite (filter_none is_index names Hnot). cbn. f_equal.
  apply forallb_filter_id, forallb_forall. intros k Hk%list_elem_of_In.
  unfold not_index. by rewrite (Hnot k Hk).
Qed.

Lemma index_le_trans k1 k2 k3 :
  index_le k1 k2 → index_le k2 k3 → index_le k1 k3.
Proof.
  unfold index_le.
  destruct (array_index k1), (array_index k2), (array_index k3); try done.
  lia.
Qed.

Lemma place_sorted k ks :
  is_index k = true → Forall (fun x => is_index x = true) ks →
  StronglySorted index_le ks → StronglySorted index_le (place k ks).
Proof.
  intros Hk Hall Hsorted.
  induction Hsorted as [|k0 ks Hsorted IH Hk0]; cbn.
  - repeat constructor.
  - apply Forall_cons in Hall as [Hi0 Hall].
    unfold precedes, is_index in *.
    destruct (array_index k) as [n|] eqn:Hn; [|done].
    destruct (array_index k0) as [n0|] eqn:Hn0; [|done].
    destruct (N.ltb_spec n n0) as [Hlt|Hge].
    + constructor; [by constructor|]. constructor.
      * unfold index_le. rewrite Hn, Hn0. lia.
      * eapply Forall_impl; [exact Hk0|]. intros x Hx.
        apply (index_le_trans k k0 x); [|done].
        unfold index_le. rewrite Hn, Hn0. lia.
    + constructor; [by apply IH|].
      apply Forall_forall. intros x [->|Hx]%elem_of_place.
      * unfold index_le. rewrite Hn, Hn0. done.
      * by eapply Forall_forall in Hk0.
Qed.

(** The array indices of the enumeration are in ascending order. *)
Lemma ascending_sorted names : StronglySorted index_le (ascending names).
Proof.
  unfold ascending. induction names as [|x names IH] using rev_ind.
  - constructor.
  - rewrite List.filter_app. cbn [List.filter].
    destruct (is_index x) eqn:Hx; [|by rewrite app_nil_r].
    rewrite foldl_snoc. unfold add_key. case_bool_decide; [done|].
    apply place_sorted; [done| |done].
    apply Forall_forall. intros k Hk.
    by apply (elem_of_ascending k names) in Hk as [_ ?].
Qed.

(** ** The grouper *)

Lemma reduce_from_snoc {A B} (f : B → A → nat → B) k xs x acc :
  reduce_from f k (xs ++ [x]) acc
  = f (reduce_from f k xs acc) x (k + length xs)%nat.
Proof.
  revert k acc. induction xs as [|y xs IH]; intros k acc; cbn.
  - by rewrite Nat.add_0_r.
  - rewrite IH. f_equal. lia.
Qed.

Lemma reduceR_snoc {A B} (f : B → A → result B) xs x acc :
  reduceR f (xs ++ [x]) acc = (acc' ← reduceR f xs acc; f acc' x).
Proof.
  revert acc. induction xs as [|y xs IH]; intros acc; cbn.
  - by destruct (f acc x).
  - destruct (f acc y); [apply IH|done].
Qed.

Lemma inherited_proto : inherited "__proto__" = true.
Proof. reflexivity. Qed.

(** The template of a configuration without a category [__proto__] has
    the configured categories as keys, in the order of enumeration, each
    with an empty list. *)
Lemma buildGroupsTemplate_spec {A} (groups : list string) :
  "__proto__" ∉ groups →
  keys (buildGroupsTemplate (A:=A) groups) = enumeration groups ∧
  ∀ k, k ∈ groups → get (buildGroupsTemplate (A:=A) groups) k = Some [].
Proof.
  unfold buildGroupsTemplate, reduce.
  induction groups as [|g groups IH] using rev_ind; intros Hproto.
  - split; [done|]. by intros k ?%elem_of_nil.
  - apply not_elem_of_app in Hproto as [Hproto Hg].
    apply not_elem_of_cons in Hg as [Hg _].
    destruct (IH Hproto) as [IHk IHg].
    rewrite reduce_from_snoc, assign_set by (right; congruence).
    rewrite keys_set_add, enumeration_snoc, IHk. split; [done|].
    intros k Hk. destruct (decide (g = k)) as [->|Hne].
    + apply get_set_eq.
    + rewrite get_set_ne by done. apply IHg.
      apply elem_of_app in Hk as [?|?%list_elem_of_singleton]; [done|].
      congruence.
Qed.

Section Grouper.
Context {A : Type} `{Categorized A}.

Lemma filter_in_category_snoc k (docs : list A) doc :
  List.filter (in_category k) (docs ++ [doc])
  = List.filter (in_category k) docs
    ++ (if String.eqb (category doc) k then [doc] else []).
Proof. by rewrite List.filter_app. Qed.

Lemma filter_in_category_none k (docs : list A) :
  k ∉ category <$> docs → List.filter (in_category k) docs = [].
Proof.
  intros Hk. apply filter_none. intros doc Hdoc. unfold in_category.
  destruct (String.eqb_spec (category doc) k) as [<-|]; [|done].
  destruct Hk. by apply list_elem_of_fmap_2.
Qed.

Lemma groupable_true groups (docs : list A) :
  forallb (groupable groups) docs = true ↔
  ∀ d, d ∈ docs → category d ∉ groups → inherited (category d) = false.
Proof.
  rewrite forallb_forall. unfold groupable. split.
  - intros Hall d Hd%list_elem_of_In Hcat. specialize (Hall d Hd).
    rewrite bool_decide_eq_false_2 in Hall by done.
    by apply negb_true_iff in Hall.
  - intros Hall d Hd%list_elem_of_In. case_bool_decide; [done|].
    cbn. apply negb_true_iff. by apply Hall.
Qed.

Lemma groupable_false groups (docs : list A) :
  forallb (groupable groups) docs = false ↔
  ∃ d, d ∈ docs ∧ (category d ∉ groups) ∧ inherited (category d) = true.
Proof.
  rewrite forallb_false. unfold groupable. split.
  - intros (d & Hd & Hg). exists d. split; [done|].
    apply orb_false_iff in Hg as [Hg Hi].
    apply bool_decide_eq_false_1 in Hg. by apply negb_false_iff in Hi.
  - intros (d & Hd & Hg & Hi). exists d. split; [done|].
    by rewrite bool_decide_eq_false_2, Hi.
Qed.

(** In a configuration without a category [__proto__], the grouper throws
    when an entry has a category that is not configured and names an
    inherited property. Otherwise its keys are the configured categories
    and the categories of the entries, in the order of enumeration, and
    the list of a key holds the entries of that category in the order of
    the input. *)
Lemma groupDocs_spec (docs : list A) (groups : list string) :
  "__proto__" ∉ groups →
  if forallb (groupable groups) docs
  then ∃ obj,
         groupDocs docs groups = Ok obj ∧
         keys obj = enumeration (groups ++ (category <$> docs)) ∧
         ∀ k, k ∈ keys obj →
           get obj k = Some (List.filter (in_category k) docs)
  else groupDocs docs groups = Throw PUSH_ERROR.
Proof.
  intros Hproto. unfold groupDocs.
  induction docs as [|doc docs IH] using rev_ind.
  - cbn [forallb reduceR].
    destruct (buildGroupsTemplate_spec (A:=A) groups Hproto) as [Hk Hg].
    eexists. split; [done|]. cbn [fmap list_fmap]. rewrite app_nil_r.
    split; [done|]. intros k Hk'. apply Hg.
    rewrite Hk in Hk'. by apply elem_of_enumeration.
  - rewrite forallb_app, reduceR_snoc. cbn [forallb]. rewrite andb_true_r.
    destruct (forallb (groupable groups) docs) eqn:Hall; cbn [andb];
      [|by rewrite IH].
    destruct IH as (obj & Hrun & Hkeys & Hget). rewrite Hrun.
    cbn [mbind result_bind].
    set (c := category doc).
    assert (c ∈ keys obj → groupable groups doc = true) as Hown.
    { rewrite Hkeys, elem_of_enumeration, elem_of_app. unfold groupable.
      intros [Hc|Hc]; [by rewrite bool_decide_eq_true_2|].
      apply list_elem_of_fmap in Hc as (d & Hd & Hin).
      rewrite forallb_forall in Hall.
      specialize (Hall d (proj1 (list_elem_of_In _ _) Hin)).
      unfold groupable in Hall. fold c. by rewrite Hd. }
    assert (c ∉ keys obj → groupable groups doc = negb (inherited c)) as Hnew.
    { rewrite Hkeys, elem_of_enumeration, elem_of_app. intros Hc.
      unfold groupable. fold c. rewrite bool_decide_eq_false_2; [done|].
      intros ?. apply Hc. by left. }
    assert (∀ array,
              array = List.filter (in_category c) docs →
              (is_Some (get obj c) ∨ c ≠ "__proto__") →
              ∃ obj',
                (let acc := assign obj c array in
                 array' ← push (Some array) doc;
                 Ok (set acc c array')) = Ok obj' ∧
                keys obj'
                = enumeration (groups ++ (category <$> docs ++ [doc])) ∧
                ∀ k, k ∈ keys obj' →
                  get obj' k
                  = Some (List.filter (in_category k) (docs ++ [doc])))
      as Hstep.
    { intros array Harray Hassign. cbn zeta. rewrite assign_set by done.
      cbn [push mbind result_bind]. eexists. split; [done|].
      assert (keys (set (set obj c array) c (array ++ [doc]))
              = enumeration (groups ++ (category <$> docs ++ [doc])))
        as Hkeys'.
      { rewrite !keys_set_add, add_key_idemp, Hkeys.
        rewrite fmap_app, app_assoc. cbn [fmap list_fmap].
        by rewrite enumeration_snoc. }
      split; [done|]. intros k Hk.
      rewrite filter_in_category_snoc. fold c.
      destruct (String.eqb_spec c k) as [<-|Hne].
      - by rewrite get_set_eq, Harray.
      - rewrite !get_set_ne, app_nil_r by done. apply Hget.
        rewrite Hkeys', fmap_app, app_assoc, elem_of_enumeration in Hk.
        rewrite Hkeys, elem_of_enumeration.
        apply elem_of_app in Hk as [?|?%list_elem_of_singleton]; [done|].
        by destruct Hne. }
    unfold access. destruct (get obj c) as [l|] eqn:Hl.
    + rewrite Hown by (apply get_Some_keys; by rewrite Hl).
      apply Hstep; [|left; by eexists].
      rewrite Hget in Hl by (apply get_Some_keys; by rewrite Hl).
      by simplify_eq.
    + apply get_None_keys in Hl as Hc. rewrite (Hnew Hc).
      destruct (inherited c) eqn:Hinh; cbn [negb]; [done|].
      apply Hstep.
      * rewrite Hkeys, elem_of_enumeration in Hc.
        rewrite filter_in_category_none; [done|].
        intros Hin. apply Hc, elem_of_app. by right.
      * right. intros Heq. by rewrite Heq, inherited_proto in Hinh.
Qed.

End Grouper.

(** C1 fails: [acc[doc.category] || []] makes a list for the unknown
    category, and the entry is grouped under a new key. *)
Lemma groupDocs_unknown_category_grouped :
  let doc := entry "format" "Misc" in
  doc ∈ [doc] ∧
  (category doc ∉ ["Day Helpers"]) ∧
  groupDocs [doc] ["Day Helpers"]
  = Ok [("Day Helpers", []); ("Misc", [doc])] ∧
  (¬ unknown_category_fails).
Proof.
  intros doc.
  assert (category doc ∉ ["Day Helpers"]) as Hcat.
  { by intros ?%list_elem_of_singleton. }
  split_and!; [by left|done|done|].
  intros Hclaim.
  destruct (Hclaim [doc] ["Day Helpers"] doc) as [e He]; [by left|done|].
  discriminate.
Qed.


(** An entry whose category is not configured and names an inherited
    property makes the grouper throw; when the category is configured the
    template has it as a key, and the entry is grouped. *)
Example groupDocs_constructor :
  groupDocs [entry "format" "constructor"] ["Day Helpers"] = Throw PUSH_ERROR ∧
  groupDocs [entry "format" "constructor"] ["constructor"]
  = Ok [("constructor", [entry "format" "constructor"])] ∧
  groupDocs [entry "format" "__proto__"] ["Day Helpers"] = Throw PUSH_ERROR.
Proof. by vm_compute. Qed.

Section GrouperClaims.
Context {A : Type} `{Categorized A}.

(** C1, amended. In a configuration without a category [__proto__], the
    grouper fails exactly when some entry has a category that is not
    configured and names a property every object inherits, such as
    [constructor]: what the guarded lookup finds is then no array. When
    there is no such entry, an entry whose category is not among the
    configured ones does not make the grouper fail: the grouper returns
    an object in which that category is a key, and the list of the key
    holds the entries of the category, this entry among them; unless the
    category is an array index, the key comes after all the configured
    ones. *)
Theorem groupDocs_unknown_category (docs : list A) groups doc :
  doc ∈ docs → category doc ∉ groups → "__proto__" ∉ groups →
  ((∃ e, groupDocs docs groups = Throw e) ↔
   ∃ d, d ∈ docs ∧ (category d ∉ groups) ∧ inherited (category d) = true) ∧
  ((∀ d, d ∈ docs → category d ∉ groups → inherited (category d) = false) →
   ∃ obj,
     groupDocs docs groups = Ok obj ∧
     category doc ∈ keys obj ∧
     get obj (category doc)
     = Some (List.filter (in_category (category doc)) docs) ∧
     doc ∈ List.filter (in_category (category doc)) docs ∧
     (array_index (category doc) = None →
      ∃ before after,
        keys obj = before ++ category doc :: after ∧
        ∀ g, g ∈ groups → g ∈ before)).
Proof.
  intros Hdoc Hcat Hproto.
  pose proof (groupDocs_spec docs groups Hproto) as Hspec. split.
  - rewrite <- groupable_false.
    destruct (forallb (groupable groups) docs).
    + destruct Hspec as (obj & -> & _). split; [by intros [e ?]|done].
    + rewrite Hspec. split; [done|by eexists].
  - intros Hall%groupable_true. rewrite Hall in Hspec.
    destruct Hspec as (obj & Hrun & Hkeys & Hget).
    assert (category doc ∈ keys obj) as Hkey.
    { rewrite Hkeys, elem_of_enumeration, elem_of_app. right.
      by apply list_elem_of_fmap_2. }
    exists obj. split_and!; [done|done|by apply Hget| |].
    + apply list_elem_of_In, filter_In. split; [by apply list_elem_of_In|].
      apply String.eqb_refl.
    + intros Hnot.
      assert (is_index (category doc) = false) as Hni.
      { unfold is_index. by rewrite Hnot. }
      unfold enumeration in Hkeys. rewrite List.filter_app in Hkeys.
      destruct (keep_first_app (List.filter not_index groups)
                  (List.filter not_index (category <$> docs)))
        as [extra Hextra].
      rewrite Hextra in Hkeys.
      assert (category doc ∈ extra) as Hin.
      { assert (category doc
                ∈ keep_first (List.filter not_index groups) ++ extra) as Hc.
        { rewrite <- Hextra, elem_of_keep_first, elem_of_app. right.
          apply list_elem_of_In, filter_In. split.
          - by apply list_elem_of_In, list_elem_of_fmap_2.
          - unfold not_index. by rewrite Hni. }
        apply elem_of_app in Hc as [Hc|Hc]; [|done].
        apply elem_of_keep_first, list_elem_of_In, filter_In in Hc as [Hc _].
        by apply list_elem_of_In in Hc. }
      apply list_elem_of_split in Hin as (l1 & l2 & ->).
      exists (ascending (groups ++ (category <$> docs))
              ++ keep_first (List.filter not_index groups) ++ l1), l2.
      split; [by rewrite Hkeys, <- !app_assoc|].
      intros g Hg. destruct (is_index g) eqn:Hgi.
      * apply elem_of_app. left. apply elem_of_ascending.
        split; [|done]. apply elem_of_app. by left.
      * apply elem_of_app. right. apply elem_of_app. left.
        apply elem_of_keep_first, list_elem_of_In, filter_In.
        split; [by apply list_elem_of_In|]. unfold not_index. by rewrite Hgi.
Qed.


End GrouperClaims.

Lemma groupDocs_unknown_category_witness :
  let docs := [entry "format" "Misc"; entry "addDays" "Day Helpers";
               entry "isDate" "1"] in
  let doc := entry "format" "Misc" in
  ((∃ e, groupDocs docs ["Day Helpers"] = Throw e) ↔
   ∃ d, d ∈ docs ∧ (category d ∉ ["Day Helpers"]) ∧
        inherited (category d) = true) ∧
  ∃ obj,
    groupDocs docs ["Day Helpers"] = Ok obj ∧
    category doc ∈ keys obj ∧
    get obj (category doc)
    = Some (List.filter (in_category (category doc)) docs) ∧
    doc ∈ List.filter (in_category (category doc)) docs ∧
    (array_index (category doc) = None →
     ∃ before after,
       keys obj = before ++ category doc :: after ∧
       ∀ g, g ∈ ["Day Helpers"] → g ∈ before).
Proof.
  intros docs doc.
  destruct (groupDocs_unknown_category docs ["Day Helpers"] doc)
    as [Hthrows Hgroups].
  - by left.
  - by intros ?%list_elem_of_singleton.
  - by intros ?%list_elem_of_singleton.
  - split; [exact Hthrows|]. apply Hgroups. intros d Hd _.
    repeat (apply elem_of_cons in Hd as [->|Hd]; [reflexivity|]).
    by apply elem_of_nil in Hd.
Defined.


(** ** The syntax string *)

Lemma append_nil_r s : s +:+ "" = s.
Proof. induction s as [|a s IH]; [done|]. by rewrite append_cons, IH. Qed.

Lemma join_from_acc sep k xs R :
  join_from sep (S k) xs R = R +:+ join_from sep (S k) xs "".
Proof.
  revert k R. induction xs as [|x xs IH]; intros k R; cbn [join_from].
  - by rewrite append_nil_r.
  - rewrite (IH _ ((R +:+ sep) +:+ x)), (IH _ (("" +:+ sep) +:+ x)).
    by rewrite append_nil, !append_assoc.
Qed.

Lemma join_from_concat sep k xs :
  join_from sep (S k) xs ""
  = match xs with [] => "" | _ => sep +:+ String.concat sep xs end.
Proof.
  revert k. induction xs as [|x xs IH]; intros k; [done|].
  cbn [join_from]. rewrite join_from_acc, IH, append_nil.
  destruct xs as [|y ys]; cbn [String.concat].
  - by rewrite append_nil_r.
  - by rewrite append_assoc.
Qed.

(** [join] is the concatenation with the separator between the elements. *)
Lemma join_concat xs sep : join xs sep = String.concat sep xs.
Proof.
  unfold join. destruct xs as [|x xs]; [done|].
  cbn [join_from]. rewrite join_from_acc, join_from_concat, append_nil.
  destruct xs; [apply append_nil_r|done].
Qed.

(** C7. For a non-null list of top-level parameters the syntax string is
    the name, an opening parenthesis, the names of the parameters in
    order, those of the optional ones in square brackets, separated by a
    comma and a space, and a closing parenthesis; the [props] of the
    parameters play no part in it. *)
Theorem generateSyntaxString_spec (name : string) (args : list Param) :
  generateSyntaxString name (Some args) = Ok (syntax_spec name args) ∧
  generateSyntaxString name
    (Some ((fun p : Param => Node (set_props p None)) <$> args))
  = generateSyntaxString name (Some args).
Proof.
  assert (generateSyntaxString name (Some args) = Ok (syntax_spec name args))
    as Hspec.
  { unfold generateSyntaxString, syntax_spec. by rewrite join_concat. }
  split; [done|]. unfold generateSyntaxString.
  do 4 f_equal. rewrite <- list_fmap_compose. done.
Qed.

Example syntax_addDays :
  generateSyntaxString "addDays" (Some [param "date"; param "amount"])
  = Ok "addDays(date, amount)".
Proof. reflexivity. Qed.

Example syntax_format :
  generateSyntaxString "format"
    (Some [param "date";
           Node (MkParam "format" "" [] (Some true) None None None);
           Node (MkParam "options" "" [] (Some true) None None
                   (Some [Node (MkParam "locale" "" [] (Some true) None
                                  (Some true) None)]))])
  = Ok "format(date, [format], [options])".
Proof. reflexivity. Qed.

(** ** The assembler *)

Lemma mapR_throws {A B} (f : A → result B) xs x e :
  x ∈ xs → f x = Throw e → ∃ e', mapR f xs = Throw e'.
Proof.
  intros Hx Hf. induction xs as [|y xs IH]; [by apply elem_of_nil in Hx|].
  cbn [mapR]. destruct (f y) as [b|e0] eqn:Hy; [|by eexists].
  apply elem_of_cons in Hx as [->|Hx]; [congruence|].
  destruct (IH Hx) as [e' ->]. by eexists.
Qed.

(** C4. A record without a parameter list is not assembled: the null tree
    reaches [generateSyntaxString], whose [args.map] throws, and with it
    the callback over any list of records that contains this one. *)
Theorem assemble_null_params `{Imports} (doc : RawDoc.t) :
  RawDoc.params doc = None →
  assemble doc = Throw (TypeError "Cannot read property 'map' of null") ∧
  ∀ jsDocs, doc ∈ jsDocs → ∃ e, mapR assemble jsDocs = Throw e.
Proof.
  intros Hnull.
  assert (assemble doc = Throw (TypeError "Cannot read property 'map' of null"))
    as Hthrow.
  { unfold assemble. by rewrite Hnull. }
  split; [done|]. intros jsDocs Hdoc. by eapply mapR_throws.
Qed.

Lemma assemble_null_params_witness :
  @assemble scenario no_params
  = Throw (TypeError "Cannot read property 'map' of null") ∧
  ∀ jsDocs, no_params ∈ jsDocs → ∃ e, mapR (@assemble scenario) jsDocs = Throw e.
Proof. apply (@assemble_null_params scenario no_params). reflexivity. Defined.

Example assemble_addDays :
  @assemble scenario addDays
  = Ok (DocEntry.Make "jsdoc" "addDays" "Day Helpers" "addDays" "Add days."
          addDays (Some [param "date"; param "amount"])
          (Usage.Make
             (Snippet.Make "CommonJS"
                "var addDays = require('date-fns/add_days')")
             (Snippet.Make "UMD" "var addDays = dateFns.addDays")
             (Snippet.Make "ES 2015"
                "import addDays from 'date-fns/add_days'"))
          ["commonjs"; "umd"; "es2015"] "addDays(date, amount)").
Proof. vm_compute. reflexivity. Qed.

(** ** The injector *)

Lemma mapR_cases {A B} (f : A → result B) xs :
  match mapR f xs with
  | Ok ys => Forall2 (fun y x => f x = Ok y) ys xs
  | Throw e => ∃ x, x ∈ xs ∧ f x = Throw e
  end.
Proof.
  induction xs as [|x xs IH]; cbn [mapR]; [constructor|].
  destruct (f x) as [y|e] eqn:Hx; cbn.
  - destruct (mapR f xs) as [ys|e]; cbn.
    + by constructor.
    + destruct IH as (x' & Hx' & He). exists x'. split; [by right|done].
  - exists x. split; [by left|done].
Qed.

(** The pushes of the injector: they throw when the category of a static
    document is not a key; otherwise every list keeps what it held and
    gains the static documents of its category, in their order. *)
Lemma injectAll_cases (statics : list StaticDoc.t) (obj : JSObject (list Entry)) :
  match injectAll statics obj with
  | Ok obj' =>
      keys obj' = keys obj ∧
      ∀ k l, get obj k = Some l →
        get obj' k
        = Some (l ++ (Markdown <$> List.filter (in_category k) statics))
  | Throw e =>
      e = TypeError "Cannot read property 'push' of undefined" ∧
      ∃ doc, doc ∈ statics ∧ category doc ∉ keys obj
  end.
Proof.
  unfold injectAll. revert obj.
  induction statics as [|doc statics IH]; intros obj.
  - cbn. split; [done|]. intros k l Hl. by rewrite app_nil_r.
  - cbn [reduceR]. destruct (get obj (category doc)) as [array|] eqn:Harray.
    2:{ cbn. split; [done|]. exists doc. split; [by left|].
        by apply get_None_keys. }
    cbn [push mbind result_bind].
    set (obj1 := set obj (category doc) (array ++ [Markdown doc])).
    assert (keys obj1 = keys obj) as Hkeys1.
    { unfold obj1. rewrite keys_set, bool_decide_eq_true_2; [done|].
      apply get_Some_keys. eauto. }
    specialize (IH obj1). destruct (reduceR _ statics obj1) as [obj'|e].
    + destruct IH as [Hkeys' Hget]. split; [congruence|].
      intros k l Hl. cbn [List.filter]. unfold in_category at 1.
      destruct (String.eqb_spec (category doc) k) as [<-|Hne].
      * rewrite (Hget (category doc) (array ++ [Markdown doc])).
        -- simplify_eq. by rewrite <- app_assoc.
        -- apply get_set_eq.
      * apply Hget. unfold obj1. by rewrite get_set_ne.
    + destruct IH as [-> (doc' & Hdoc' & Hkey)]. split; [done|].
      exists doc'. split; [by right|congruence].
Qed.

(** A static document whose category is not a key makes the injector
    throw: this is the lookup against an absent key of the script. *)
Lemma injectAll_unknown_category doc statics (obj : JSObject (list Entry)) :
  get obj (category doc) = None →
  injectAll (doc :: statics) obj
  = Throw (TypeError "Cannot read property 'push' of undefined").
Proof. intros Hnone. unfold injectAll. cbn [reduceR]. by rewrite Hnone. Qed.

(** C6. The injector fulfils when the static documents can be read and
    their categories are keys of the grouped object. Whenever it fulfils,
    the process is as it was, the object has the same keys, and every list
    is the list it was followed by the static documents of its category,
    in the order of the descriptors: every static document comes after
    all the entries that were there. This holds for every grouped object
    and every list of descriptors, in whatever order. *)
Theorem injectStaticDocs_appends `{Imports} (obj : JSObject (list Entry)) w :
  ((∀ d, d ∈ staticDocs docsConfig →
      (∃ content, readFile (StaticDoc.d_path d) = Ok content) ∧
      StaticDoc.d_category d ∈ keys obj) →
   ∃ obj', injectStaticDocsToDocsObj obj w = (Fulfilled obj', w)) ∧
  ∀ obj' w',
    injectStaticDocsToDocsObj obj w = (Fulfilled obj', w') →
    ∃ statics,
      w' = w ∧
      Forall2 (fun doc d => ∃ content,
                 readFile (StaticDoc.d_path d) = Ok content ∧
                 doc = with_content content d)
        statics (staticDocs docsConfig) ∧
      keys obj' = keys obj ∧
      ∀ k l, get obj k = Some l →
        get obj' k
        = Some (l ++ (Markdown <$> List.filter (in_category k) statics)).
Proof.
  unfold injectStaticDocsToDocsObj, then_, getListOfStaticDocs, settle.
  pose proof (mapR_cases
                (fun staticDoc =>
                   content ← readFile (StaticDoc.d_path staticDoc);
                   Ok (with_content content staticDoc))
                (staticDocs docsConfig)) as Hread.
  destruct (mapR _ (staticDocs docsConfig)) as [statics|e].
  - assert (Forall2 (fun doc d => ∃ content,
                       readFile (StaticDoc.d_path d) = Ok content ∧
                       doc = with_content content d)
              statics (staticDocs docsConfig)) as Hall.
    { eapply Forall2_impl; [exact Hread|]. intros doc d Hd. cbn in Hd.
      destruct (readFile (StaticDoc.d_path d)) as [content|]; [|done].
      exists content. by simplify_eq/=. }
    pose proof (injectAll_cases statics obj) as Hinject.
    destruct (injectAll statics obj) as [obj1|e]; split.
    + intros _. by exists obj1.
    + intros obj' w' [= <- <-]. exists statics. by destruct Hinject.
    + intros Hconfig. destruct Hinject as [_ (doc & Hdoc & Hkey)].
      destruct (proj1 (list_elem_of_lookup _ _) Hdoc) as [i Hi].
      destruct (Forall2_lookup_l _ _ _ _ _ Hall Hi) as (d & Hd & content & _ & ->).
      destruct Hkey. apply Hconfig. by eapply list_elem_of_lookup_2.
    + intros obj' w' [=].
  - split; [|by intros obj' w' [=]].
    intros Hconfig. destruct Hread as (d & Hd & Hthrow).
    destruct (Hconfig d Hd) as [[content Hc] _]. by rewrite Hc in Hthrow.
Qed.

Example inject_getting_started :
  @injectStaticDocsToDocsObj with_static
    [("General", [JsDoc (entry "isDate" "General")]); ("Day Helpers", [])]
    {| stderr := []; files := [] |}
  = (Fulfilled
       [("General",
         [JsDoc (entry "isDate" "General");
          Markdown (with_content "# Getting Started" getting_started)]);
        ("Day Helpers", [])],
     {| stderr := []; files := [] |}).
Proof. vm_compute. reflexivity. Qed.

(** ** The extraction and the end of the process *)

Section Extraction.
Context `{Imports}.

(** Chunks are accumulated up to the event that settles the stream. *)
Lemma on_events_chunks chunks events data :
  on_events ((on_data <$> chunks) ++ events) data
  = on_events events (foldl String.append data chunks).
Proof.
  revert data. induction chunks as [|chunk chunks IH]; intros data; [done|].
  cbn [fmap list_fmap app on_events foldl]. apply IH.
Qed.

(** An [error] event prints the error and exits the process with 1. *)
Lemma on_events_error chunks err rest data w :
  on_events ((on_data <$> chunks) ++ on_error err :: rest) data w
  = (Ended (Exited 1), console_error (value_of err) w).
Proof. by rewrite on_events_chunks. Qed.

(** Once the process has ended, the rest of the fold changes nothing. *)
Lemma fold_ended files k promise o w w' :
  promise w = (Ended o, w') →
  reduce_from next_file k files promise w = (Ended o, w').
Proof.
  revert k promise. induction files as [|file files IH]; intros k promise Hp;
    [done|].
  cbn [reduce_from]. apply IH. unfold next_file, then_. by rewrite Hp.
Qed.

(** The fold over files whose extraction completes fulfils, and leaves
    the process as it was. *)
Lemma fold_extracts files k promise acc w w' :
  Forall extracts files →
  promise w = (Fulfilled acc, w') →
  ∃ acc', reduce_from next_file k files promise w = (Fulfilled acc', w').
Proof.
  intros Hfiles. revert k promise acc.
  induction Hfiles as [|file files [doc Hdoc] _ IH]; intros k promise acc Hp.
  - by exists acc.
  - cbn [reduce_from]. apply (IH _ _ (acc ++ doc)).
    unfold next_file, then_, generateDocFromSource, then_, resolve.
    by rewrite Hp, Hdoc.
Qed.

Lemma on_events_step events data w :
  extraction_step w (on_events events data w).
Proof.
  revert data. induction events as [|[chunk| |err] events IH]; intros data;
    cbn [on_events]; [done|apply IH| |done].
  by destruct (JSON_parse data).
Qed.

Lemma next_file_step promise file index w :
  extraction_step w (promise w) → extraction_step w (next_file promise file index w).
Proof.
  unfold next_file, then_ at 1. destruct (promise w) as [[acc|e|o] w']; [|done..].
  intros ->. unfold generateDocFromSource, then_.
  pose proof (on_events_step (parseJSDoc (fullPath file)) "" w) as Hev.
  by destruct (on_events _ _ w) as [[doc|e|o] w'].
Qed.

Lemma next_file_ended promise file index w :
  extraction_ended w (promise w) →
  extraction_ended w (next_file promise file index w).
Proof.
  unfold next_file, then_ at 1. by destruct (promise w) as [[acc|e|o] w'].
Qed.

Lemma next_file_error promise file index chunks err rest w :
  parseJSDoc (fullPath file) = (on_data <$> chunks) ++ on_error err :: rest →
  extraction_step w (promise w) →
  extraction_ended w (next_file promise file index w).
Proof.
  intros Hstream. unfold next_file, then_ at 1.
  destruct (promise w) as [[acc|e|o] w']; [|done..].
  intros ->. unfold generateDocFromSource, then_.
  by rewrite Hstream, on_events_error.
Qed.

Lemma fold_step_ended files k promise w :
  extraction_ended w (promise w) →
  extraction_ended w (reduce_from next_file k files promise w).
Proof.
  revert k promise. induction files as [|file files IH]; intros k promise Hp;
    [done|].
  cbn [reduce_from]. by apply IH, next_file_ended.
Qed.

(** With a file whose stream emits an error, the fold ends the process,
    whatever happens at the files before. *)
Lemma fold_error_ended before file after chunks err rest k promise w :
  parseJSDoc (fullPath file) = (on_data <$> chunks) ++ on_error err :: rest →
  extraction_step w (promise w) →
  extraction_ended w (reduce_from next_file k (before ++ file :: after) promise w).
Proof.
  intros Hstream. revert k promise.
  induction before as [|f before IH]; intros k promise Hp; cbn [app reduce_from].
  - by eapply fold_step_ended, next_file_error.
  - by apply IH, next_file_step.
Qed.

(** C9. When the stream of a source file emits an error, the process does
    not complete and no file is written, whatever happened at the files
    before. If these were extracted, so that the stream is read, the
    process exits with status 1, the error is what was last written to
    the error stream, and the files are those there were. *)
Theorem stream_error_exits w before file after chunks err rest :
  listFiles = before ++ file :: after →
  parseJSDoc (fullPath file) = (on_data <$> chunks) ++ on_error err :: rest →
  fst (main w) ≠ Completed ∧
  files (snd (main w)) = files w ∧
  (Forall extracts before →
   main w
   = (Exited 1, {| stderr := stderr w ++ [value_of err]; files := files w |})).
Proof.
  intros Hfiles Hstream.
  assert (∀ r, reduce next_file listFiles (resolve []) w = r →
               main w = match r with
                        | (Ended o, w') => (o, w')
                        | _ => main w
                        end) as Hmain.
  { intros [[acc|e|o] w'] Hr; [done..|].
    unfold main, catch, then_ at 1 2 3, generateDocsFromSource, then_ at 1.
    fold next_file. by rewrite Hr. }
  split_and!.
  - pose proof (fold_error_ended before file after chunks err rest 0
                  (resolve []) w Hstream eq_refl) as Hend.
    rewrite <- Hfiles in Hend. fold (reduce next_file listFiles (resolve [])) in Hend.
    rewrite (Hmain _ eq_refl).
    destruct (reduce next_file listFiles (resolve []) w) as [[acc|e|o] w']; try done.
    by destruct Hend.
  - pose proof (fold_error_ended before file after chunks err rest 0
                  (resolve []) w Hstream eq_refl) as Hend.
    rewrite <- Hfiles in Hend. fold (reduce next_file listFiles (resolve [])) in Hend.
    rewrite (Hmain _ eq_refl).
    destruct (reduce next_file listFiles (resolve []) w) as [[acc|e|o] w']; try done.
    by destruct Hend.
  - intros Hbefore.
    rewrite (Hmain (Ended (Exited 1), console_error (value_of err) w)); [done|].
    unfold reduce. rewrite Hfiles.
    destruct (fold_extracts before 0 (resolve []) [] w w Hbefore eq_refl)
      as [acc Hacc].
    assert (∀ k (p : Promise (list RawDoc.t)),
              p w = (Fulfilled acc, w) →
              reduce_from next_file k (file :: after) p w
              = (Ended (Exited 1), console_error (value_of err) w)) as Htail.
    { intros k p Hp. cbn [reduce_from]. apply fold_ended.
      unfold next_file, then_ at 1. rewrite Hp.
      unfold generateDocFromSource, then_.
      by rewrite Hstream, on_events_error. }
    clear Hfiles Hmain. revert Hacc. generalize (resolve (A:=list RawDoc.t) []).
    generalize 0%nat.
    induction before as [|f before IH]; intros k p Hacc.
    + by apply Htail.
    + cbn [app reduce_from] in *. apply IH; [by inversion Hbefore|done].
Qed.

End Extraction.

Lemma stream_error_exits_witness :
  let w := {| stderr := []; files := [] |} in
  fst (@main failing_stream w) ≠ Completed ∧
  files (snd (@main failing_stream w)) = files w ∧
  @main failing_stream w
  = (Exited 1,
     {| stderr := stderr w ++ [value_of (StreamError "parse failed")];
        files := files w |}).
Proof.
  intros w.
  pose proof (@stream_error_exits failing_stream w
                [{| fullPath := "src/add_days/index.js" |}]
                {| fullPath := "src/broken/index.js" |} [] ["[{"]
                (StreamError "parse failed") [] eq_refl eq_refl)
    as (Hcompleted & Hfiles & Hexit).
  split_and!; [exact Hcompleted|exact Hfiles|].
  apply Hexit. constructor; [|constructor].
  exists [addDays]. intros w'. reflexivity.
Defined.

Example stream_error_run :
  @main failing_stream {| stderr := []; files := [] |}
  = (Exited 1,
     {| stderr := [value_of (StreamError "parse failed")]; files := [] |}).
Proof. vm_compute. reflexivity. Qed.

(** The end-to-end scenario of the specification: the object handed to
    the writer has the one category with the one entry; the process
    completes and has written the one file. *)
Example scenario_object :
  then_ (then_ (@generateDocsFromSource scenario) (@generatedDocsObj scenario))
    (@injectStaticDocsToDocsObj scenario) {| stderr := []; files := [] |}
  = (Fulfilled
       [("Day Helpers",
         [JsDoc
            (DocEntry.Make "jsdoc" "addDays" "Day Helpers" "addDays"
               "Add days." addDays (Some [param "date"; param "amount"])
               (Usage.Make
                  (Snippet.Make "CommonJS"
                     "var addDays = require('date-fns/add_days')")
                  (Snippet.Make "UMD" "var addDays = dateFns.addDays")
                  (Snippet.Make "ES 2015"
                     "import addDays from 'date-fns/add_days'"))
               ["commonjs"; "umd"; "es2015"] "addDays(date, amount)")])],
     {| stderr := []; files := [] |}).
Proof. vm_compute. reflexivity. Qed.

Example main_scenario :
  @main scenario {| stderr := []; files := [] |}
  = (Completed,
     {| stderr := [];
        files := [("/date-fns/dist/date_fns_docs.json", "{...}")] |}).
Proof. vm_compute. reflexivity. Qed.

(** * Further properties *)

(** ** The tree builder *)

Lemma omap_lookup_filter {A B} (F : A → B) (c : A → bool) (l : list A) :
  omap (fun j => F <$> l !! j)
    (List.filter (fun j => match l !! j with Some q => c q | None => false end)
       (seq 0 (length l)))
  = F <$> List.filter c l.
Proof.
  induction l as [|x l IH] using rev_ind; [done|].
  rewrite length_app, Nat.add_1_r, seq_S, !List.filter_app, omap_app, fmap_app.
  cbn [Nat.add]. f_equal.
  - rewrite <- IH.
    assert (∀ js, (∀ j, j ∈ js → (j < length l)%nat) →
              omap (fun j => F <$> (l ++ [x]) !! j)
                (List.filter
                   (fun j => match (l ++ [x]) !! j with
                             | Some q => c q | None => false end) js)
              = omap (fun j => F <$> l !! j)
                  (List.filter
                     (fun j => match l !! j with
                               | Some q => c q | None => false end) js))
      as Hext.
    { induction js as [|j js IHjs]; intros Hjs; [done|].
      cbn [List.filter]. rewrite lookup_app_l by (apply Hjs; by left).
      destruct (l !! j) as [q|] eqn:Hq.
      - destruct (c q); cbn [omap list_omap].
        + rewrite lookup_app_l, Hq by (apply Hjs; by left). cbn.
          f_equal. apply IHjs. intros j' Hj'. apply Hjs. by right.
        + apply IHjs. intros j' Hj'. apply Hjs. by right.
      - apply IHjs. intros j' Hj'. apply Hjs. by right. }
    apply Hext. intros j Hj. apply list_elem_of_In, in_seq in Hj. lia.
  - cbn [List.filter]. rewrite list_lookup_middle by done.
    destruct (c x); cbn; [|done].
    by rewrite list_lookup_middle.
Qed.

(** The children of a parameter are the parameters nested under it, in
    the order of the input, renamed and marked. *)
Lemma kids_filter ps i :
  kids ps i
  = (fun q : Param => Node (as_property q)) <$> List.filter (child_of ps i) ps.
Proof.
  unfold kids, children_upto.
  rewrite <- (omap_lookup_filter (fun q : Param => Node (as_property q))
                (child_of ps i) ps).
  done.
Qed.

(** X1. The tree builder, which works in place on shared objects, computes
    the tree of section 4.1 or throws: when every parameter to be nested
    finds its parent it returns the top-level parameters in input order,
    each with its [props] followed by its children; the children of a
    parameter are the unmarked dotted parameters whose prefix the index
    maps to it, in input order, with the short name and the mark.
    Otherwise it throws the [TypeError] of [parent.props]. A parameter to
    be nested finds its parent when the part of its name before the first
    dot is the name of a parameter of the list and is not [__proto__],
    under which the index stores nothing. *)
Theorem paramsToTree_refines ps :
  paramsToTree (Some ps)
  = (if resolves ps then Ok (Some (tree_spec ps)) else Throw PROP_ERROR) ∧
  (∀ i, kids ps i
        = (fun q : Param => Node (as_property q))
          <$> List.filter (child_of ps i) ps) ∧
  (resolves ps = true ↔
   ∀ q : Param, q ∈ ps →
     0 <= indexOf (name q) "." → truthy (isProperty q) = false →
     parent_name q ≠ "__proto__" ∧
     ∃ q' : Param, q' ∈ ps ∧ name q' = parent_name q) ∧
  ∀ s, name_index ps !! s = None ↔
       s = "__proto__" ∨ ∀ q : Param, q ∈ ps → name q ≠ s.
Proof.
  split_and!; [apply paramsToTree_spec|apply kids_filter|apply resolves_true|].
  intros s. rewrite eq_None_not_Some, name_index_is_Some. split.
  - intros Hnone. destruct (decide (s = "__proto__")) as [|Hs]; [by left|].
    right. intros q Hq Hname. apply Hnone. eauto.
  - intros [->|Hnone] (Hs & q & Hq & Hname); [done|]. by apply (Hnone q).
Qed.

(** X2. The tree builder throws exactly when the list has a parameter with
    a dotted name that is not marked as a property and whose prefix
    before the first dot is [__proto__] or is the name of no parameter of
    the list; what it throws is always the [TypeError] of the access to
    [parent.props]. *)
Theorem paramsToTree_throws_iff (ps : list Param) :
  ((∃ e, paramsToTree (Some ps) = Throw e) ↔
   ∃ child : Param,
     child ∈ ps ∧ 0 <= indexOf (name child) "." ∧
     truthy (isProperty child) = false ∧
     (parent_name child = "__proto__" ∨
      ∀ q : Param, q ∈ ps → name q ≠ parent_name child)) ∧
  ∀ e, paramsToTree (Some ps) = Throw e → e = PROP_ERROR.
Proof.
  rewrite paramsToTree_spec. unfold resolves.
  destruct (forallb _ ps) eqn:Hres; split.
  - split; [by intros [e ?]|]. intros (child & Hchild & Horphan).
    rewrite forallb_forall in Hres.
    specialize (Hres child (proj1 (list_elem_of_In _ _) Hchild)).
    apply orphan_true in Horphan. by rewrite Horphan in Hres.
  - by intros e.
  - split; [|by eexists]. intros _.
    apply forallb_false in Hres as (child & Hchild & Horphan).
    apply negb_false_iff in Horphan. exists child. split; [done|].
    by apply orphan_true.
  - by intros e [= <-].
Qed.

Lemma omap_imap_filter {A} (c : A → bool) (g : nat → A → option A) l :
  (∀ i x, l !! i = Some x → g i x = if c x then Some x else None) →
  omap id (imap g l) = List.filter c l.
Proof.
  revert g. induction l as [|x l IH]; intros g Hg; [done|].
  rewrite imap_cons. cbn [omap list_omap List.filter].
  rewrite (Hg 0%nat x eq_refl), (IH (g ∘ S)).
  - by destruct (c x).
  - intros i y Hy. apply (Hg (S i) y Hy).
Qed.

(** X3. When no parameter has a dot in its name, the tree builder returns
    the parameters that are not marked as properties, in order and
    unchanged: nothing is nested and no [props] is added; a list without
    marked parameters is returned as it is. *)
Theorem paramsToTree_no_dots (ps : list Param) :
  (∀ q : Param, q ∈ ps → indexOf (name q) "." = -1) →
  paramsToTree (Some ps) = Ok (Some (List.filter unmarked ps)) ∧
  ((∀ q : Param, q ∈ ps → truthy (isProperty q) = false) →
   paramsToTree (Some ps) = Ok (Some ps)).
Proof.
  intros Hdots.
  assert (∀ q : Param, q ∈ ps → nests q = false) as Hnests.
  { intros q Hq. unfold nests, dotted. by rewrite (Hdots q Hq). }
  assert (paramsToTree (Some ps) = Ok (Some (List.filter unmarked ps))) as Hrun.
  { rewrite paramsToTree_spec.
    assert (resolves ps = true) as ->.
    { unfold resolves. apply forallb_forall. intros q Hq%list_elem_of_In.
      unfold orphan. by rewrite (Hnests q Hq). }
    do 2 f_equal. unfold tree_spec. apply omap_imap_filter. intros i p Hp.
    assert (p ∈ ps) as Hin by (by eapply list_elem_of_lookup_2).
    unfold top_level, unmarked, dotted. rewrite (Hdots p Hin). cbn.
    rewrite andb_true_r. destruct (negb (truthy (isProperty p))); [|done].
    f_equal. unfold tree_node, kids.
    rewrite filter_none_children; [by destruct p as [[]]|].
    intros j q Hq. eapply Hnests, list_elem_of_lookup_2, Hq. }
  split; [done|]. intros Hflat. rewrite Hrun. do 2 f_equal.
  apply forallb_filter_id, forallb_forall. intros q Hq%list_elem_of_In.
  unfold unmarked. by rewrite (Hflat q Hq).
Qed.

Lemma paramsToTree_no_dots_witness :
  paramsToTree (Some [param "date"; param "amount"])
  = Ok (Some (List.filter unmarked [param "date"; param "amount"])) ∧
  paramsToTree (Some [param "date"; param "amount"])
  = Ok (Some [param "date"; param "amount"]).
Proof.
  assert (∀ q : Param, q ∈ [param "date"; param "amount"] →
            indexOf (name q) "." = -1) as Hdots.
  { intros q Hq. apply elem_of_cons in Hq as [->|Hq]; [by vm_compute|].
    apply list_elem_of_singleton in Hq as ->. by vm_compute. }
  destruct (paramsToTree_no_dots [param "date"; param "amount"] Hdots)
    as [Hrun Hflat].
  split; [exact Hrun|]. apply Hflat. intros q Hq.
  apply elem_of_cons in Hq as [->|Hq]; [reflexivity|].
  apply list_elem_of_singleton in Hq as ->. reflexivity.
Defined.

Lemma omap_imap_fmap_filter {A B} (h : A → B) (c : A → bool)
    (g : nat → A → option A) l :
  (∀ i x, l !! i = Some x →
     if c x then ∃ y, g i x = Some y ∧ h y = h x else g i x = None) →
  h <$> omap id (imap g l) = h <$> List.filter c l.
Proof.
  revert g. induction l as [|x l IH]; intros g Hg; [done|].
  rewrite imap_cons. cbn [omap list_omap List.filter].
  pose proof (Hg 0%nat x eq_refl) as Hx.
  specialize (IH (g ∘ S) (fun i y Hy => Hg (S i) y Hy)).
  destruct (c x).
  - destruct Hx as (y & -> & Hy). cbn. by rewrite Hy, IH.
  - rewrite Hx. cbn. apply IH.
Qed.

(** X4. Whenever the tree builder returns, what it returns is the list of
    the input parameters that are not marked and have no dot in their
    name, in the order of the input, changed in their [props] at most: no
    parameter is added, reordered or renamed, and none of the output is
    marked or has a dotted name. *)
Theorem paramsToTree_output (ps out : list Param) :
  paramsToTree (Some ps) = Ok (Some out) →
  erase_props <$> out = erase_props <$> List.filter top_level ps ∧
  (length out ≤ length ps)%nat ∧
  ∀ q : Param, q ∈ out →
    truthy (isProperty q) = false ∧ indexOf (name q) "." = -1.
Proof.
  rewrite paramsToTree_spec. destruct (resolves ps); [|done].
  intros [= <-].
  assert (erase_props <$> tree_spec ps
          = erase_props <$> List.filter top_level ps) as Herase.
  { unfold tree_spec. apply omap_imap_fmap_filter. intros i p Hp.
    destruct (top_level p); [|done]. by eexists. }
  split_and!; [done| |].
  - rewrite <- (length_fmap erase_props), Herase, length_fmap.
    apply filter_length_le.
  - intros q (i & p & _ & Htop & ->)%elem_of_tree_spec.
    change (isProperty (tree_node ps i p)) with (isProperty p).
    change (name (tree_node ps i p)) with (name p).
    unfold top_level, dotted in Htop.
    apply andb_true_iff in Htop as [Hm Hd].
    apply negb_true_iff in Hm, Hd. apply Z.leb_gt in Hd. split; [done|].
    destruct (indexOf_bounds (name p)); [lia|done].
Qed.

Lemma paramsToTree_output_witness :
  let ps := [param "date"; param "options"; param "options.year"] in
  let out := [param "date";
              Node (MkParam "options" "" [] None None None
                      (Some [Node (MkParam "year" "" [] None None
                                     (Some true) None)]))] in
  erase_props <$> out = erase_props <$> List.filter top_level ps ∧
  (length out ≤ length ps)%nat ∧
  ∀ q : Param, q ∈ out →
    truthy (isProperty q) = false ∧ indexOf (name q) "." = -1.
Proof.
  intros ps out. apply (paramsToTree_output ps out). by vm_compute.
Defined.

(** The index gives the last position of a name. *)
Lemma reduce_from_ge {A} (nm : A → string) (ps : list A) k acc s i :
  s ≠ "__proto__" →
  reduce_from (add_name nm) k ps acc !! s = Some i →
  ∀ j q, ps !! j = Some q → nm q = s → (k + j ≤ i)%nat.
Proof.
  intros Hs.
  revert k acc. induction ps as [|x ps IH]; intros k acc Hi j q Hq Hname;
    [done|].
  cbn [reduce_from] in Hi. destruct j as [|j].
  - simplify_eq/=.
    apply reduce_from_lookup in Hi as [Hi|(q' & _ & Hk & _)]; [|lia].
    unfold add_name, set_index in Hi.
    destruct (String.eqb_spec (nm q) "__proto__") as [|_]; [done|].
    rewrite lookup_insert_eq in Hi. simplify_eq. lia.
  - specialize (IH _ _ Hi j q Hq Hname). lia.
Qed.

Lemma name_index_ge ps s i :
  name_index ps !! s = Some i →
  ∀ j (q : Param), ps !! j = Some q → name q = s → (j ≤ i)%nat.
Proof.
  intros Hi j q Hq Hname.
  assert (s ≠ "__proto__") as Hs.
  { intros ->. by rewrite name_index_proto in Hi. }
  apply (reduce_from_ge (fun p : Param => name p) ps 0 ∅ s i Hs Hi j q Hq Hname).
Qed.

(** X5. When two parameters have the same name, the index keeps the
    later one: nothing is nested under a top-level parameter that is
    followed by a parameter of the same name, and the tree builder returns
    it as it is in the input. *)
Theorem paramsToTree_earlier_namesake (ps out : list Param) i i' (p p' : Param) :
  paramsToTree (Some ps) = Ok (Some out) →
  ps !! i = Some p → top_level p = true →
  (i < i')%nat → ps !! i' = Some p' → name p' = name p →
  p ∈ out.
Proof.
  rewrite paramsToTree_spec. destruct (resolves ps); [|done].
  intros [= <-] Hp Htop Hlt Hp' Hname.
  apply elem_of_tree_spec. exists i, p. split_and!; [done..|].
  unfold tree_node. rewrite kids_filter.
  rewrite filter_none; [by destruct p as [[]]|].
  intros q _. unfold child_of. destruct (nests q); [|done]. cbn.
  apply bool_decide_eq_false_2. intros Hi.
  pose proof (name_index_lookup _ _ _ Hi) as (q0 & Hq0 & Hq0name).
  simplify_eq.
  pose proof (name_index_ge _ _ _ Hi i' p' Hp') as Hle.
  rewrite Hname, Hq0name in Hle. specialize (Hle eq_refl). lia.
Qed.

Lemma paramsToTree_earlier_namesake_witness :
  param "options"
  ∈ [param "options";
     Node (MkParam "options" "" [] None None None
             (Some [Node (MkParam "year" "" [] None None (Some true) None)]))].
Proof.
  apply (paramsToTree_earlier_namesake
           [param "options"; param "options.year"; param "options"]
           _ 0%nat 2%nat (param "options") (param "options")).
  - by vm_compute.
  - reflexivity.
  - reflexivity.
  - lia.
  - reflexivity.
  - reflexivity.
Defined.

(** ** The grouper *)

Lemma NoDup_filter_bool {A} (f : A → bool) (l : list A) :
  NoDup l → NoDup (List.filter f l).
Proof.
  induction 1 as [|x l Hx _ IH]; cbn; [constructor|].
  destruct (f x); [|done]. constructor; [|done].
  rewrite list_elem_of_In, filter_In, <- list_elem_of_In. tauto.
Qed.

Lemma NoDup_keep_first l : NoDup (keep_first l).
Proof.
  induction l as [|x l IH]; cbn; constructor.
  - rewrite elem_of_filter_neq. tauto.
  - by apply NoDup_filter_bool.
Qed.

(** An object whose keys are distinct is its keys with their values. *)
Lemma object_by_keys {V} (f : string → V) (o : JSObject V) :
  NoDup (keys o) →
  (∀ k, k ∈ keys o → get o k = Some (f k)) →
  o = (fun k => (k, f k)) <$> keys o.
Proof.
  unfold keys, get. induction o as [|[k v] o IH]; intros Hnodup Hget; [done|].
  cbn [map fmap list_fmap fst] in *.
  apply NoDup_cons in Hnodup as [Hk Hnodup].
  pose proof (Hget k ltac:(by left)) as Hv. cbn in Hv.
  rewrite String.eqb_refl in Hv. cbn in Hv. simplify_eq.
  f_equal. apply IH; [done|]. intros k' Hk'.
  specialize (Hget k' ltac:(by right)). cbn in Hget.
  destruct (String.eqb_spec k k') as [->|Hne]; [done|]. exact Hget.
Qed.

(** X6. The template of a configuration without a category [__proto__]
    has one key for each distinct configured category, each with an empty
    list: first the categories that are array indices, in ascending
    order, then the others in the order of their first occurrences. A
    category configured twice gives one key; without array indices the
    keys are the distinct categories in the configured order. *)
Theorem buildGroupsTemplate_closed_form {A} (groups : list string) :
  "__proto__" ∉ groups →
  buildGroupsTemplate (A:=A) groups
  = (fun g => (g, []))
    <$> (ascending groups ++ keep_first (List.filter not_index groups)) ∧
  (∀ k, k ∈ ascending groups ↔ k ∈ groups ∧ is_index k = true) ∧
  StronglySorted index_le (ascending groups) ∧
  NoDup (ascending groups ++ keep_first (List.filter not_index groups)) ∧
  ((∀ k, k ∈ groups → array_index k = None) →
   buildGroupsTemplate (A:=A) groups = (fun g => (g, [])) <$> keep_first groups).
Proof.
  intros Hproto.
  destruct (buildGroupsTemplate_spec (A:=A) groups Hproto) as [Hkeys Hget].
  assert (buildGroupsTemplate (A:=A) groups
          = (fun g => (g, [])) <$> enumeration groups) as Hobj.
  { rewrite <- Hkeys. apply object_by_keys.
    - rewrite Hkeys. apply NoDup_enumeration.
    - intros k Hk. apply Hget. rewrite Hkeys in Hk.
      by apply elem_of_enumeration. }
  split_and!; [done| |apply ascending_sorted|apply NoDup_enumeration|].
  - intros k. apply elem_of_ascending.
  - intros Hnone. by rewrite Hobj, enumeration_no_index.
Qed.

Lemma buildGroupsTemplate_closed_form_witness :
  let groups := ["b"; "10"; "a"; "2"; "b"; "10"] in
  buildGroupsTemplate (A:=DocEntry.t) groups
  = [("2", []); ("10", []); ("b", []); ("a", [])] ∧
  StronglySorted index_le (ascending groups).
Proof.
  intros groups.
  assert ("__proto__" ∉ groups) as Hproto.
  { intros Hin. repeat (apply elem_of_cons in Hin as [Hin|Hin]; [done|]).
    by apply elem_of_nil in Hin. }
  destruct (buildGroupsTemplate_closed_form (A:=DocEntry.t) groups Hproto)
    as (Hobj & _ & Hsorted & _).
  split; [exact Hobj|exact Hsorted].
Defined.

Section GrouperExtras.
Context {A : Type} `{Categorized A}.

Lemma groupDocs_table (docs : list A) (groups : list string) :
  "__proto__" ∉ groups →
  groupDocs docs groups
  = if forallb (groupable groups) docs
    then Ok ((fun k => (k, List.filter (in_category k) docs))
               <$> enumeration (groups ++ (category <$> docs)))
    else Throw PUSH_ERROR.
Proof.
  intros Hproto. pose proof (groupDocs_spec docs groups Hproto) as Hspec.
  destruct (forallb (groupable groups) docs); [|done].
  destruct Hspec as (obj & -> & Hkeys & Hget).
  f_equal. rewrite <- Hkeys. apply object_by_keys; [|done].
  rewrite Hkeys. apply NoDup_enumeration.
Qed.

(** X7. What the grouper returns, in a configuration without a category
    [__proto__]. When some entry has a category that is not configured
    and names an inherited property, it throws. Otherwise it returns
    exactly this object: one key for each distinct category among the
    configured ones and those of the entries, the array indices first in
    ascending order and then the others in the order of their first
    occurrences, and under each key the entries of that category in the
    order of the input. *)
Theorem groupDocs_closed_form (docs : list A) (groups : list string) :
  "__proto__" ∉ groups →
  groupDocs docs groups
  = (if forallb (groupable groups) docs
     then Ok ((fun k => (k, List.filter (in_category k) docs))
                <$> (ascending (groups ++ (category <$> docs))
                     ++ keep_first
                          (List.filter not_index
                             (groups ++ (category <$> docs)))))
     else Throw PUSH_ERROR) ∧
  (forallb (groupable groups) docs = true ↔
   ∀ d, d ∈ docs → category d ∉ groups → inherited (category d) = false) ∧
  (∀ k, k ∈ ascending (groups ++ (category <$> docs)) ↔
        k ∈ groups ++ (category <$> docs) ∧ is_index k = true) ∧
  StronglySorted index_le (ascending (groups ++ (category <$> docs))).
Proof.
  intros Hproto. split_and!.
  - pose proof (groupDocs_spec docs groups Hproto) as Hspec.
    destruct (forallb (groupable groups) docs); [|done].
    destruct Hspec as (obj & -> & Hkeys & Hget).
    f_equal. fold (enumeration (groups ++ (category <$> docs))).
    rewrite <- Hkeys. apply object_by_keys; [|done].
    rewrite Hkeys. apply NoDup_enumeration.
  - apply groupable_true.
  - intros k. apply elem_of_ascending.
  - apply ascending_sorted.
Qed.

Lemma concat_nil_lists {B} (ks : list B) :
  concat ((fun _ => @nil A) <$> ks) = [].
Proof. induction ks as [|k ks IH]; [done|]. cbn. exact IH. Qed.

Lemma concat_one_more (g : string → list A) c d ks :
  NoDup ks → c ∈ ks →
  concat ((fun k => (if String.eqb c k then [d] else []) ++ g k) <$> ks)
  ≡ₚ d :: concat (g <$> ks).
Proof.
  induction 1 as [|k ks Hk Hnodup IH]; intros Hc;
    [by apply elem_of_nil in Hc|].
  cbn [fmap list_fmap concat].
  destruct (String.eqb_spec c k) as [->|Hne].
  - cbn. apply Permutation_refl'. do 3 f_equal.
    apply list_fmap_ext. intros i k' Hk'.
    destruct (String.eqb_spec k k') as [Heq|_]; [|done].
    destruct Hk. rewrite Heq. by eapply list_elem_of_lookup_2.
  - cbn. apply elem_of_cons in Hc as [?|Hc]; [done|].
    rewrite (IH Hc). by rewrite Permutation_middle.
Qed.

Lemma concat_by_category ks (docs : list A) :
  NoDup ks → (∀ d, d ∈ docs → category d ∈ ks) →
  concat ((fun k => List.filter (in_category k) docs) <$> ks) ≡ₚ docs.
Proof.
  intros Hnodup. induction docs as [|d docs IH]; intros Hcat.
  - cbn. by rewrite concat_nil_lists.
  - transitivity (d :: concat ((fun k => List.filter (in_category k) docs) <$> ks)).
    + rewrite <- (concat_one_more
                    (fun k => List.filter (in_category k) docs)
                    (category d) d ks Hnodup)
        by (apply Hcat; by left).
      apply Permutation_refl'. f_equal. apply list_fmap_ext. intros i k _.
      cbn [List.filter]. unfold in_category at 1.
      by destruct (String.eqb (category d) k).
    + apply perm_skip, IH. intros d' Hd'. apply Hcat. by right.
Qed.

(** X8. Whenever the grouper returns, in a configuration without a
    category [__proto__], it has lost and duplicated nothing: the keys of
    its result are distinct, the lists of the result taken together are a
    permutation of the input, and every entry is in the list of its own
    category. *)
Theorem groupDocs_partition (docs : list A) (groups : list string) obj :
  "__proto__" ∉ groups →
  groupDocs docs groups = Ok obj →
  NoDup (keys obj) ∧
  concat (snd <$> obj) ≡ₚ docs ∧
  ∀ k l d, (k, l) ∈ obj → d ∈ l → category d = k.
Proof.
  intros Hproto. rewrite (groupDocs_table docs groups Hproto).
  destruct (forallb (groupable groups) docs); [|done]. intros [= <-].
  set (ks := enumeration (groups ++ (category <$> docs))).
  assert (NoDup ks) as Hnodup by apply NoDup_enumeration.
  split_and!.
  - unfold keys. change (map fst) with (fmap (M:=list) (@fst string (list A))).
    rewrite <- list_fmap_compose.
    by erewrite list_fmap_ext, list_fmap_id.
  - rewrite <- list_fmap_compose. apply (concat_by_category ks docs Hnodup).
    intros d Hd. unfold ks. rewrite elem_of_enumeration, elem_of_app. right.
    by apply list_elem_of_fmap_2.
  - intros k l d (k' & [= -> ->] & _)%list_elem_of_fmap Hd.
    apply list_elem_of_In, filter_In in Hd as [_ Hd].
    by apply String.eqb_eq in Hd.
Qed.

End GrouperExtras.

Lemma groupDocs_closed_form_witness :
  let docs := [entry "format" "Misc"; entry "addDays" "Day Helpers";
               entry "isDate" "1"; entry "subDays" "Day Helpers"] in
  let groups := ["General"; "constructor"; "Day Helpers"] in
  groupDocs docs groups
  = Ok [("1", [entry "isDate" "1"]);
        ("General", []);
        ("constructor", []);
        ("Day Helpers",
         [entry "addDays" "Day Helpers"; entry "subDays" "Day Helpers"]);
        ("Misc", [entry "format" "Misc"])] ∧
  groupDocs (docs ++ [entry "valueOf" "valueOf"]) groups = Throw PUSH_ERROR.
Proof.
  intros docs groups.
  assert ("__proto__" ∉ groups) as Hproto.
  { intros Hin. repeat (apply elem_of_cons in Hin as [Hin|Hin]; [done|]).
    by apply elem_of_nil in Hin. }
  split.
  - exact (proj1 (groupDocs_closed_form docs groups Hproto)).
  - exact (proj1 (groupDocs_closed_form
                    (docs ++ [entry "valueOf" "valueOf"]) groups Hproto)).
Defined.

Lemma groupDocs_partition_witness :
  let docs := [entry "format" "Misc"; entry "addDays" "Day Helpers";
               entry "isDate" "1"; entry "subDays" "Day Helpers"] in
  let obj := [("1", [entry "isDate" "1"]);
              ("General", []);
              ("Day Helpers",
               [entry "addDays" "Day Helpers"; entry "subDays" "Day Helpers"]);
              ("Misc", [entry "format" "Misc"])] in
  NoDup (keys obj) ∧
  concat (snd <$> obj) ≡ₚ docs ∧
  ∀ k l d, (k, l) ∈ obj → d ∈ l → category d = k.
Proof.
  intros docs obj.
  apply (groupDocs_partition docs ["General"; "Day Helpers"] obj).
  - intros Hin. repeat (apply elem_of_cons in Hin as [Hin|Hin]; [done|]).
    by apply elem_of_nil in Hin.
  - reflexivity.
Defined.

(** ** The injector *)



(** X10. When the file of a static document cannot be read, the injector
    rejects with the error of a failed read, pushes nothing and leaves the
    process as it was. *)
Theorem injectStaticDocs_read_failure `{Imports} (obj : JSObject (list Entry))
    w d e :
  d ∈ staticDocs docsConfig →
  readFile (StaticDoc.d_path d) = Throw e →
  ∃ d' e',
    d' ∈ staticDocs docsConfig ∧
    readFile (StaticDoc.d_path d') = Throw e' ∧
    injectStaticDocsToDocsObj obj w = (Rejected e', w).
Proof.
  intros Hd Hread.
  unfold injectStaticDocsToDocsObj, then_, getListOfStaticDocs, settle.
  pose proof (mapR_cases
                (fun staticDoc =>
                   content ← readFile (StaticDoc.d_path staticDoc);
                   Ok (with_content content staticDoc))
                (staticDocs docsConfig)) as Hcases.
  destruct (mapR _ (staticDocs docsConfig)) as [statics|e'].
  - destruct (proj1 (list_elem_of_lookup _ _) Hd) as [i Hi].
    destruct (Forall2_lookup_r _ _ _ _ _ Hcases Hi) as (doc & _ & Hdoc).
    cbn in Hdoc. by rewrite Hread in Hdoc.
  - destruct Hcases as (d' & Hd' & Hthrow). exists d', e'.
    split_and!; [done| |done].
    destruct (readFile (StaticDoc.d_path d')) as [content|e0]; [done|].
    cbn in Hthrow. congruence.
Qed.

Lemma injectStaticDocs_read_failure_witness :
  ∃ d' e',
    d' ∈ staticDocs (@docsConfig unreadable) ∧
    @readFile unreadable (StaticDoc.d_path d') = Throw e' ∧
    @injectStaticDocsToDocsObj unreadable
      [("General", [])] {| stderr := []; files := [] |}
    = (Rejected e', {| stderr := []; files := [] |}).
Proof.
  apply (@injectStaticDocs_read_failure unreadable [("General", [])]
           {| stderr := []; files := [] |} getting_started
           (SystemError "ENOENT")).
  - by left.
  - reflexivity.
Defined.

Lemma filter_fmap {A B} (f : B → bool) (g : A → B) (l : list A) :
  List.filter f (g <$> l) = g <$> List.filter (fun x => f (g x)) l.
Proof.
  induction l as [|x l IH]; [done|]. cbn. destruct (f (g x)); cbn; by rewrite IH.
Qed.

Lemma groupable_entries groups (docs : list DocEntry.t) :
  (∀ d, d ∈ docs → category d ∉ groups → inherited (category d) = false) →
  forallb (groupable groups) (JsDoc <$> docs) = true.
Proof.
  intros Hall. apply groupable_true.
  intros e (d & -> & Hd)%list_elem_of_fmap. by apply Hall.
Qed.

Lemma grouped_injected_object (docs : list DocEntry.t) (groups : list string)
    (statics : list StaticDoc.t) :
  "__proto__" ∉ groups →
  (∀ d, d ∈ docs → category d ∉ groups → inherited (category d) = false) →
  (∀ doc, doc ∈ statics → category doc ∈ groups ++ (category <$> docs)) →
  (obj ← groupDocs (JsDoc <$> docs) groups; injectAll statics obj)
  = Ok ((fun k =>
           (k, (JsDoc <$> List.filter (in_category k) docs)
               ++ (Markdown <$> List.filter (in_category k) statics)))
          <$> enumeration (groups ++ (category <$> docs))).
Proof.
  intros Hproto Hdocs Hstatics.
  assert (category <$> (JsDoc <$> docs) = category <$> docs) as Hcats.
  { by rewrite <- list_fmap_compose. }
  pose proof (groupDocs_spec (JsDoc <$> docs) groups Hproto) as Hspec.
  rewrite (groupable_entries groups docs Hdocs) in Hspec.
  destruct Hspec as (obj & -> & Hkeys & Hget).
  rewrite Hcats in Hkeys. cbn [mbind result_bind].
  pose proof (injectAll_cases statics obj) as Hcases.
  destruct (injectAll statics obj) as [obj'|e].
  - destruct Hcases as [Hkeys' Hget']. f_equal.
    rewrite <- Hkeys, <- Hkeys'. apply object_by_keys.
    + rewrite Hkeys', Hkeys. apply NoDup_enumeration.
    + intros k Hk. rewrite Hkeys' in Hk.
      rewrite (Hget' k _ (Hget k Hk)), filter_fmap. done.
  - destruct Hcases as [_ (doc & Hdoc & Hkey)]. destruct Hkey.
    rewrite Hkeys, elem_of_enumeration. by apply Hstatics.
Qed.

(** X11. The grouper followed by the pushes of the injector, in a
    configuration without a category [__proto__], when no entry has a
    category that is not configured and names an inherited property, and
    the category of every static document is configured or is the
    category of an entry: the result has one key for each distinct
    category, the array indices first in ascending order and then the
    others in the order of their first occurrences, the configured ones
    first; under each key come the entries of the category in the order
    of the input followed by its static documents in the order of the
    descriptors. *)
Theorem grouped_then_injected (docs : list DocEntry.t) (groups : list string)
    (statics : list StaticDoc.t) :
  "__proto__" ∉ groups →
  (∀ d, d ∈ docs → category d ∉ groups → inherited (category d) = false) →
  (∀ doc, doc ∈ statics → category doc ∈ groups ++ (category <$> docs)) →
  (obj ← groupDocs (JsDoc <$> docs) groups; injectAll statics obj)
  = Ok (docs_object groups docs statics) ∧
  keys (docs_object groups docs statics)
  = ascending (groups ++ (category <$> docs))
    ++ keep_first (List.filter not_index (groups ++ (category <$> docs))) ∧
  StronglySorted index_le (ascending (groups ++ (category <$> docs))) ∧
  ∀ k, k ∈ keys (docs_object groups docs statics) →
    get (docs_object groups docs statics) k
    = Some ((JsDoc <$> List.filter (in_category k) docs)
            ++ (Markdown <$> List.filter (in_category k) statics)).
Proof.
  intros Hproto Hdocs Hstatics.
  assert (keys (docs_object groups docs statics)
          = enumeration (groups ++ (category <$> docs))) as Hkeys.
  { unfold docs_object, keys.
    change (map fst) with (fmap (M:=list) (@fst string (list Entry))).
    rewrite <- list_fmap_compose. by erewrite list_fmap_ext, list_fmap_id. }
  split_and!;
    [by apply grouped_injected_object|done|apply ascending_sorted|].
  intros k Hk. rewrite Hkeys in Hk. clear Hkeys. unfold docs_object, get.
  induction (enumeration (groups ++ (category <$> docs))) as [|k0 ks IH];
    [by apply elem_of_nil in Hk|].
  cbn. destruct (String.eqb_spec k0 k) as [->|Hne]; [done|].
  apply elem_of_cons in Hk as [?|Hk]; [congruence|]. by apply IH.
Qed.

Lemma grouped_then_injected_witness :
  let docs := [entry "isDate" "General"; entry "addDays" "Day Helpers";
               entry "format" "2"; entry "isValid" "General"] in
  let statics := [with_content "# Getting Started" getting_started] in
  (obj ← groupDocs (JsDoc <$> docs) ["General"]; injectAll statics obj)
  = Ok [("2", [JsDoc (entry "format" "2")]);
        ("General",
         [JsDoc (entry "isDate" "General"); JsDoc (entry "isValid" "General");
          Markdown (with_content "# Getting Started" getting_started)]);
        ("Day Helpers", [JsDoc (entry "addDays" "Day Helpers")])].
Proof.
  intros docs statics.
  refine (proj1 (grouped_then_injected docs ["General"] statics _ _ _)).
  - by intros ?%list_elem_of_singleton.
  - intros d Hd _.
    repeat (apply elem_of_cons in Hd as [->|Hd]; [reflexivity|]).
    by apply elem_of_nil in Hd.
  - intros doc Hdoc. apply list_elem_of_singleton in Hdoc as ->. by left.
Defined.

(** ** The assembler *)

(** X12. What the assembler does with a record: without a parameter list
    it throws on [args.map]; with a list in which a parameter to be
    nested has no parent it throws on [parent.props]; otherwise it
    returns the entry whose identifier and title are the name of the
    record, whose description is its summary, whose content is the record
    itself, whose [args] is the tree, and whose syntax string is made of
    the top level of the tree. A parameter to be nested has a parent when
    the part of its name before the first dot is the name of a parameter
    of the list and is not [__proto__]. *)
Theorem assemble_cases `{Imports} (doc : RawDoc.t) :
  assemble doc
  = match RawDoc.params doc with
    | None => Throw (TypeError "Cannot read property 'map' of null")
    | Some ps =>
        if resolves ps
        then Ok (DocEntry.Make "jsdoc" (RawDoc.name doc) (RawDoc.category doc)
                   (RawDoc.name doc) (RawDoc.summary doc) doc
                   (Some (tree_spec ps)) (generateUsage (RawDoc.name doc))
                   ["commonjs"; "umd"; "es2015"]
                   (syntax_spec (RawDoc.name doc) (tree_spec ps)))
        else Throw PROP_ERROR
    end ∧
  ∀ ps,
    resolves ps = true ↔
    ∀ q : Param, q ∈ ps →
      0 <= indexOf (name q) "." → truthy (isProperty q) = false →
      parent_name q ≠ "__proto__" ∧
      ∃ q' : Param, q' ∈ ps ∧ name q' = parent_name q.
Proof.
  split; [|apply resolves_true].
  unfold assemble. destruct (RawDoc.params doc) as [ps|]; [|done].
  rewrite paramsToTree_spec. destruct (resolves ps); [|done].
  cbn [mbind result_bind]. unfold generateSyntaxString.
  by rewrite join_concat.
Qed.

Lemma assemble_content `{Imports} (doc : RawDoc.t) (e : DocEntry.t) :
  assemble doc = Ok e →
  DocEntry.content e = doc ∧
  DocEntry.type e = "jsdoc" ∧
  DocEntry.urlId e = RawDoc.name doc ∧
  DocEntry.title e = RawDoc.name doc ∧
  DocEntry.category e = RawDoc.category doc ∧
  DocEntry.description e = RawDoc.summary doc.
Proof.
  unfold assemble. destruct (paramsToTree (RawDoc.params doc)) as [args|];
    [|done].
  cbn [mbind result_bind].
  destruct (generateSyntaxString (RawDoc.name doc) args); [|done].
  by intros [= <-].
Qed.

(** X13. When the callback over the records returns, it returns one entry
    for each record, in the same order: the contents of the entries are
    the records, and every entry has the name of its record as identifier
    and title, its category, and its summary as description. *)
Theorem assemble_all_contents `{Imports} (jsDocs : list RawDoc.t)
    (entries : list DocEntry.t) :
  mapR assemble jsDocs = Ok entries →
  DocEntry.content <$> entries = jsDocs ∧
  DocEntry.urlId <$> entries = RawDoc.name <$> jsDocs ∧
  DocEntry.title <$> entries = RawDoc.name <$> jsDocs ∧
  DocEntry.category <$> entries = RawDoc.category <$> jsDocs ∧
  DocEntry.description <$> entries = RawDoc.summary <$> jsDocs.
Proof.
  intros Hrun. pose proof (mapR_cases assemble jsDocs) as Hall.
  rewrite Hrun in Hall. clear Hrun.
  induction Hall as [|e doc entries jsDocs He _ IH]; [done|].
  apply assemble_content in He as (<- & _ & Hid & Htitle & Hcat & Hdesc).
  destruct IH as (IH1 & IH2 & IH3 & IH4 & IH5).
  cbn [fmap list_fmap].
  rewrite Hid, Htitle, Hcat, Hdesc.
  split_and!; f_equal; done.
Qed.

Lemma assemble_all_contents_witness :
  let entries :=
    [DocEntry.Make "jsdoc" "addDays" "Day Helpers" "addDays" "Add days."
       addDays (Some [param "date"; param "amount"])
       (Usage.Make
          (Snippet.Make "CommonJS" "var addDays = require('date-fns/add_days')")
          (Snippet.Make "UMD" "var addDays = dateFns.addDays")
          (Snippet.Make "ES 2015" "import addDays from 'date-fns/add_days'"))
       ["commonjs"; "umd"; "es2015"] "addDays(date, amount)"] in
  DocEntry.content <$> entries = [addDays] ∧
  DocEntry.urlId <$> entries = RawDoc.name <$> [addDays] ∧
  DocEntry.title <$> entries = RawDoc.name <$> [addDays] ∧
  DocEntry.category <$> entries = RawDoc.category <$> [addDays] ∧
  DocEntry.description <$> entries = RawDoc.summary <$> [addDays].
Proof.
  intros entries.
  apply (@assemble_all_contents scenario [addDays] entries).
  by vm_compute.
Defined.

(** ** The extraction *)

Lemma foldl_append_concat data chunks :
  foldl String.append data chunks = data +:+ String.concat "" chunks.
Proof.
  revert data. induction chunks as [|chunk chunks IH]; intros data.
  - cbn. by rewrite append_nil_r.
  - cbn [foldl]. rewrite IH, append_assoc. f_equal.
    destruct chunks; cbn [String.concat]; [by rewrite append_nil_r|done].
Qed.

Section ExtractionExtras.
Context `{Imports}.

(** X14. When the stream of a file emits chunks and then [end], the text
    given to [JSON.parse] is the chunks put together in the order they
    were emitted; when it parses, the records are appended after the ones
    accumulated so far, and the process is as it was. *)
Theorem generateDocFromSource_end acc fn chunks rest doc w :
  parseJSDoc (fullPath fn) = (on_data <$> chunks) ++ on_end :: rest →
  JSON_parse (String.concat "" chunks) = Ok doc →
  generateDocFromSource acc fn w = (Fulfilled (acc ++ doc), w).
Proof.
  intros Hstream Hparse. unfold generateDocFromSource, then_.
  rewrite Hstream, on_events_chunks, foldl_append_concat, append_nil.
  cbn [on_events]. by rewrite Hparse.
Qed.

Lemma fold_docs (docs : File → list RawDoc.t) files k promise acc w :
  (∀ file, file ∈ files → ∀ w,
     on_events (parseJSDoc (fullPath file)) "" w = (Fulfilled (docs file), w)) →
  promise w = (Fulfilled acc, w) →
  reduce_from next_file k files promise w
  = (Fulfilled (acc ++ concat (docs <$> files)), w).
Proof.
  revert k promise acc.
  induction files as [|file files IH]; intros k promise acc Hfiles Hp.
  - cbn. by rewrite app_nil_r.
  - cbn [reduce_from fmap list_fmap concat]. rewrite app_assoc.
    apply IH; [intros f Hf; apply Hfiles; by right|].
    unfold next_file, then_, generateDocFromSource, then_, resolve.
    rewrite Hp, (Hfiles file) by (by left). done.
Qed.

Lemma extraction_in_order (docs : File → list RawDoc.t) w :
  (∀ file, file ∈ listFiles → ∀ w,
     on_events (parseJSDoc (fullPath file)) "" w = (Fulfilled (docs file), w)) →
  generateDocsFromSource w
  = settle (mapR assemble (concat (docs <$> listFiles))) w.
Proof.
  intros Hfiles. unfold generateDocsFromSource, then_ at 1, reduce.
  change (fun (promise : Promise (list RawDoc.t)) (file : File) (_ : nat) =>
            then_ promise (fun acc => generateDocFromSource acc file))
    with next_file.
  by rewrite (fold_docs docs listFiles 0 (resolve []) [] w Hfiles eq_refl).
Qed.

(** X15. When the extraction of every file completes, the records reach
    the assembler in the order of the file list, and within a file in the
    order of the parser: the extraction is the callback over the records
    of the files put one after the other. *)
Theorem generateDocsFromSource_order (docs : File → list RawDoc.t) w :
  (∀ file, file ∈ listFiles → ∀ w,
     on_events (parseJSDoc (fullPath file)) "" w = (Fulfilled (docs file), w)) →
  generateDocsFromSource w
  = settle (mapR assemble (concat (docs <$> listFiles))) w.
Proof.
  intros Hfiles. unfold generateDocsFromSource, then_ at 1, reduce.
  change (fun (promise : Promise (list RawDoc.t)) (file : File) (_ : nat) =>
            then_ promise (fun acc => generateDocFromSource acc file))
    with next_file.
  by rewrite (fold_docs docs listFiles 0 (resolve []) [] w Hfiles eq_refl).
Qed.

(** Every stage before the writer is quiet. *)
Lemma quiet_settle {A} (r : result A) w : quiet w (settle r w).
Proof. by destruct r. Qed.

Lemma quiet_then {A B} (p : Promise A) (f : A → Promise B) w :
  quiet w (p w) → (∀ a, quiet w (f a w)) → quiet w (then_ p f w).
Proof.
  unfold then_. destruct (p w) as [[a|e|o] w']; cbn; [|done..].
  intros -> Hf. apply Hf.
Qed.

Lemma quiet_on_events events data w : quiet w (on_events events data w).
Proof.
  revert data. induction events as [|[chunk| |err] events IH]; intros data;
    cbn [on_events]; [done|apply IH| |].
  - by destruct (JSON_parse data).
  - cbn. split_and!; [done..|by eexists].
Qed.

Lemma quiet_fold files k promise w :
  quiet w (promise w) → quiet w (reduce_from next_file k files promise w).
Proof.
  revert k promise. induction files as [|file files IH]; intros k promise Hp;
    [done|].
  cbn [reduce_from]. apply IH. unfold next_file. apply quiet_then; [done|].
  intros acc. unfold generateDocFromSource. apply quiet_then.
  - apply quiet_on_events.
  - by intros doc.
Qed.

Lemma quiet_before_writer w :
  quiet w (then_ (then_ generateDocsFromSource generatedDocsObj)
             injectStaticDocsToDocsObj w).
Proof.
  apply quiet_then; [apply quiet_then|].
  - unfold generateDocsFromSource. apply quiet_then.
    + unfold reduce.
      change (fun (promise : Promise (list RawDoc.t)) (file : File) (_ : nat) =>
                then_ promise (fun acc => generateDocFromSource acc file))
        with next_file.
      by apply quiet_fold.
    + intros jsDocs. apply quiet_settle.
  - intros docs. apply quiet_settle.
  - intros obj. unfold injectStaticDocsToDocsObj. apply quiet_then.
    + apply quiet_settle.
    + intros statics. apply quiet_settle.
Qed.

(** How the script ends. *)
Lemma main_outcome w :
  match main w with
  | (Completed, w') =>
      stderr w' = stderr w ∧
      ∃ obj, files w'
             = (path_join [cwd; "dist"; "date_fns_docs.json"],
                JSON_stringify obj) :: files w
  | (o, w') => ends_cleanly w o w'
  end.
Proof.
  unfold main, catch, then_ at 1.
  pose proof (quiet_before_writer w) as Hquiet.
  destruct (then_ (then_ generateDocsFromSource generatedDocsObj)
              injectStaticDocsToDocsObj w) as [[obj|e|o] w'].
  - cbn in Hquiet. subst w'. unfold writeDocsFile.
    destruct (writeFile _ _) as [e|]; cbn.
    + split_and!; [done..|by eexists].
    + split; [done|by eexists].
  - cbn in Hquiet. subst w'. cbn. split_and!; [done..|by eexists].
  - cbn in Hquiet. by destruct o.
Qed.

(** The script in terms of its chain before the writer. *)
Lemma main_before_writer w :
  main w
  = match before_writer w with
    | (Fulfilled obj, w') =>
        match writeFile (path_join [cwd; "dist"; "date_fns_docs.json"])
                (JSON_stringify obj) with
        | None =>
            (Completed,
             {| stderr := stderr w';
                files := (path_join [cwd; "dist"; "date_fns_docs.json"],
                          JSON_stringify obj) :: files w' |})
        | Some e => (Exited 1, console_error (stack_of e) w')
        end
    | (Rejected e, w') => (Exited 1, console_error (stack_of e) w')
    | (Ended o, w') => (o, w')
    end.
Proof.
  unfold main, catch, then_ at 1, before_writer.
  destruct (then_ (then_ generateDocsFromSource generatedDocsObj)
              injectStaticDocsToDocsObj w) as [[obj|e|o] w']; [|done..].
  unfold writeDocsFile. by destruct (writeFile _ _).
Qed.

(** X16. The writer comes last. When the script completes, the three
    stages before the writer have fulfilled with an object and left the
    process as it was, and the script has printed nothing and written one
    file: the serialization of that object, at the path that [path.join]
    makes of the working directory, [dist] and [date_fns_docs.json]. When
    the stages before the writer do not fulfil, the script does not
    complete and the writer is not reached: the files are those there
    were. *)
Theorem main_writes_last w :
  (fst (main w) = Completed →
   ∃ obj,
     before_writer w = (Fulfilled obj, w) ∧
     writeFile (path_join [cwd; "dist"; "date_fns_docs.json"])
       (JSON_stringify obj) = None ∧
     snd (main w)
     = {| stderr := stderr w;
          files := (path_join [cwd; "dist"; "date_fns_docs.json"],
                    JSON_stringify obj) :: files w |}) ∧
  ((∀ obj, fst (before_writer w) ≠ Fulfilled obj) →
   fst (main w) ≠ Completed ∧ files (snd (main w)) = files w).
Proof.
  pose proof (quiet_before_writer w) as Hquiet. fold before_writer in Hquiet.
  rewrite main_before_writer.
  destruct (before_writer w) as [[obj|e|o] w']; cbn in Hquiet.
  - subst w'. split.
    + destruct (writeFile _ _) as [e|] eqn:Hwrite; cbn; [done|].
      intros _. by exists obj.
    + intros Hnone. by destruct (Hnone obj).
  - subst w'. cbn. split; [done|]. by intros _.
  - cbn. split.
    + intros ->. done.
    + intros _. destruct o; cbn in Hquiet; [done| |by subst..].
      by destruct Hquiet as (_ & ? & _).
Qed.

(** X17. When the script ends by [process.exit], the status is 1, exactly
    one message has been written to the error stream, and no file has
    been written. *)
Theorem main_exit_status w status :
  fst (main w) = Exited status →
  status = 1 ∧
  files (snd (main w)) = files w ∧
  ∃ x, stderr (snd (main w)) = stderr w ++ [x].
Proof.
  pose proof (main_outcome w) as Hmain.
  destruct (main w) as [[|status'|e|] w']; cbn in *; try done.
  by intros [= <-].
Qed.

End ExtractionExtras.

Lemma generateDocFromSource_end_witness :
  let w := {| stderr := [value_of (StreamError "earlier")];
              files := [("README", "")] |} in
  @generateDocFromSource two_files [addDays; isDate]
    {| fullPath := "src/sub_days/index.js" |} w
  = (Fulfilled ([addDays; isDate] ++ [subDays]), w).
Proof.
  intros w.
  apply (@generateDocFromSource_end two_files [addDays; isDate]
           {| fullPath := "src/sub_days/index.js" |}
           ["[{sub"; "Days"; "}]"] [] [subDays]).
  - reflexivity.
  - reflexivity.
Defined.

Lemma generateDocsFromSource_order_witness :
  let w := {| stderr := []; files := [] |} in
  let docs := fun file =>
    if String.eqb (fullPath file) "src/add_days/index.js"
    then [addDays; isDate] else [subDays] in
  @generateDocsFromSource two_files w
  = settle (mapR (@assemble two_files) [addDays; isDate; subDays]) w.
Proof.
  intros w docs.
  apply (@generateDocsFromSource_order two_files docs w).
  intros file Hfile w'.
  apply elem_of_cons in Hfile as [->|Hfile]; [reflexivity|].
  apply list_elem_of_singleton in Hfile as ->. reflexivity.
Defined.

Lemma main_exit_status_witness :
  let w := {| stderr := []; files := [] |} in
  1 = 1 ∧
  files (snd (@main failing_stream w)) = files w ∧
  ∃ x, stderr (snd (@main failing_stream w)) = stderr w ++ [x].
Proof.
  intros w. apply (@main_exit_status failing_stream w 1). reflexivity.
Defined.

(** ** More on the tree builder and on the whole script *)

(** X18. A parameter that is already marked as a property on input is
    dropped and attached to nothing: when every parameter with a dotted
    name is already marked, the tree builder returns the unmarked
    parameters without a dot, in order and unchanged. *)
Theorem paramsToTree_marked_dropped (ps : list Param) :
  (∀ q : Param, q ∈ ps →
     0 <= indexOf (name q) "." → truthy (isProperty q) = true) →
  paramsToTree (Some ps) = Ok (Some (List.filter top_level ps)).
Proof.
  intros Hmarked.
  assert (∀ q : Param, q ∈ ps → nests q = false) as Hnests.
  { intros q Hq. unfold nests, dotted.
    destruct (Z.leb_spec 0 (indexOf (name q) ".")) as [Hdot|]; [|done].
    by rewrite (Hmarked q Hq Hdot). }
  rewrite paramsToTree_spec.
  assert (resolves ps = true) as ->.
  { unfold resolves. apply forallb_forall. intros q Hq%list_elem_of_In.
    unfold orphan. by rewrite (Hnests q Hq). }
  do 2 f_equal. unfold tree_spec. apply omap_imap_filter. intros i p Hp.
  destruct (top_level p); [|done]. f_equal. unfold tree_node, kids.
  rewrite filter_none_children; [by destruct p as [[]]|].
  intros j q Hq. eapply Hnests, list_elem_of_lookup_2, Hq.
Qed.

Lemma paramsToTree_marked_dropped_witness :
  let ps := [param "options";
             Node (MkParam "options.year" "" [] None None (Some true) None)] in
  paramsToTree (Some ps) = Ok (Some (List.filter top_level ps)).
Proof.
  intros ps. apply (paramsToTree_marked_dropped ps). intros q Hq Hdot.
  apply elem_of_cons in Hq as [->|Hq]; [by vm_compute in Hdot|].
  apply list_elem_of_singleton in Hq as ->. reflexivity.
Defined.

Lemma mapR_first_throw {A B} (f : A → result B) before x after e :
  Forall (fun y => ∃ b, f y = Ok b) before →
  f x = Throw e →
  mapR f (before ++ x :: after) = Throw e.
Proof.
  intros Hbefore Hx. induction Hbefore as [|y before [b Hy] _ IH]; cbn.
  - by rewrite Hx.
  - by rewrite Hy, IH.
Qed.

Section ScriptExtras.
Context `{Imports}.

(** X19. When the extraction completes and a record cannot be assembled,
    those before it in the order of the files having been assembled, the
    script prints the stack of that record's error, exits with status 1
    and writes no file. *)
Theorem main_assembly_error (docs : File → list RawDoc.t) before doc after e w :
  (∀ file, file ∈ listFiles → ∀ w,
     on_events (parseJSDoc (fullPath file)) "" w = (Fulfilled (docs file), w)) →
  concat (docs <$> listFiles) = before ++ doc :: after →
  Forall (fun d => ∃ entry, assemble d = Ok entry) before →
  assemble doc = Throw e →
  main w
  = (Exited 1, {| stderr := stderr w ++ [stack_of e]; files := files w |}).
Proof.
  intros Hfiles Hdocs Hbefore Hdoc. unfold main, catch, then_ at 1 2 3.
  rewrite (extraction_in_order docs w Hfiles), Hdocs.
  by rewrite (mapR_first_throw assemble before doc after e Hbefore Hdoc).
Qed.

(** X20. When the extraction of every file completes, every record is
    assembled, no configured category is [__proto__], no entry has a
    category that is not configured and names an inherited property,
    every static document is read and has a category that is configured
    or is the category of an entry, and the file can be written, the
    script completes, prints nothing, and writes one file, at the path
    that [path.join] gives: the serialization of the object that has the
    categories as keys, the array indices first and then the others in
    the order of their first occurrences, the configured ones before those
    of the entries, and, under each key, the entries of the category
    followed by its static documents. *)
Theorem main_completes (docs : File → list RawDoc.t)
    (entries : list DocEntry.t) (statics : list StaticDoc.t) w :
  (∀ file, file ∈ listFiles → ∀ w,
     on_events (parseJSDoc (fullPath file)) "" w = (Fulfilled (docs file), w)) →
  mapR assemble (concat (docs <$> listFiles)) = Ok entries →
  "__proto__" ∉ groups docsConfig →
  (∀ d, d ∈ entries → category d ∉ groups docsConfig →
        inherited (category d) = false) →
  getListOfStaticDocs w = (Fulfilled statics, w) →
  (∀ doc, doc ∈ statics →
     category doc ∈ groups docsConfig ++ (category <$> entries)) →
  writeFile (path_join [cwd; "dist"; "date_fns_docs.json"])
    (JSON_stringify (docs_object (groups docsConfig) entries statics))
  = None →
  main w
  = (Completed,
     {| stderr := stderr w;
        files :=
          (path_join [cwd; "dist"; "date_fns_docs.json"],
           JSON_stringify (docs_object (groups docsConfig) entries statics))
          :: files w |}) ∧
  docs_object (groups docsConfig) entries statics
  = (fun k =>
       (k, (JsDoc <$> List.filter (in_category k) entries)
           ++ (Markdown <$> List.filter (in_category k) statics)))
    <$> (ascending (groups docsConfig ++ (category <$> entries))
         ++ keep_first
              (List.filter not_index
                 (groups docsConfig ++ (category <$> entries)))).
Proof.
  intros Hfiles Hentries Hproto Hinh Hread Hcats Hwrite. split; [|done].
  pose proof (grouped_injected_object entries (groups docsConfig) statics
                Hproto Hinh Hcats) as Hobj.
  unfold main, catch, then_ at 1 2 3.
  rewrite (extraction_in_order docs w Hfiles), Hentries.
  cbn [settle]. unfold generatedDocsObj.
  change (map JsDoc entries) with (JsDoc <$> entries).
  destruct (groupDocs (JsDoc <$> entries) (groups docsConfig)) as [obj|e0];
    [|done].
  cbn [mbind result_bind] in Hobj. cbn [settle].
  unfold injectStaticDocsToDocsObj, then_ at 1. rewrite Hread, Hobj.
  cbn [settle]. unfold writeDocsFile.
  fold (docs_object (groups docsConfig) entries statics).
  by rewrite Hwrite.
Qed.

End ScriptExtras.

Lemma main_assembly_error_witness :
  let w := {| stderr := []; files := [] |} in
  @main parameterless w
  = (Exited 1,
     {| stderr := stderr w
                  ++ [stack_of (TypeError "Cannot read property 'map' of null")];
        files := files w |}).
Proof.
  intros w.
  apply (@main_assembly_error parameterless (fun _ => [addDays; no_params])
           [addDays] no_params []).
  - intros file Hfile w'. reflexivity.
  - reflexivity.
  - constructor; [|constructor]. eexists. by vm_compute.
  - reflexivity.
Defined.

Lemma main_completes_witness :
  let w := {| stderr := []; files := [("README", "")] |} in
  @main two_files w
  = (Completed,
     {| stderr := [];
        files := [("/date-fns/dist/date_fns_docs.json",
                   "General,Day Helpers,Common Helpers");
                  ("README", "")] |}).
Proof.
  intros w.
  pose (docs := fun file =>
          if String.eqb (fullPath file) "src/add_days/index.js"
          then [addDays; isDate] else [subDays]).
  pose (statics := [with_content "# Getting Started" getting_started]).
  let r := eval vm_compute in
             (mapR (@assemble two_files) [addDays; isDate; subDays]) in
  match r with
  | Ok ?entries =>
      refine (proj1 (@main_completes two_files docs entries statics w
                       _ _ _ _ _ _ _))
  end.
  - intros file Hfile w'.
    apply elem_of_cons in Hfile as [->|Hfile]; [reflexivity|].
    apply list_elem_of_singleton in Hfile as ->. reflexivity.
  - by vm_compute.
  - intros Hin. repeat (apply elem_of_cons in Hin as [Hin|Hin]; [done|]).
    by apply elem_of_nil in Hin.
  - intros d Hd _.
    repeat (apply elem_of_cons in Hd as [->|Hd]; [reflexivity|]).
    by apply elem_of_nil in Hd.
  - reflexivity.
  - intros doc Hdoc. apply list_elem_of_singleton in Hdoc as ->. by left.
  - reflexivity.
Defined.
